(** * SecretHunter: the pattern matcher of [secretHunter.py]

    The scanner compiles three regular expressions in [data_hunter] and, for
    every stripped line of every selected file, calls [.search(line)] on each
    of them and reports [.group()] of the match object.  This file embeds the
    three patterns and the backtracking search of Python's [re] module, and
    proves the properties of the three matchers. *)

From Stdlib Require Import Ascii String List NArith Arith Bool Lia.
From Stdlib Require Import DecimalString ZArith.
Import ListNotations.

Local Open Scope N_scope.

(** ** Characters and lines

    A Python [str] is a sequence of Unicode code points. *)

Definition char := N.
Definition str := list char.

Definition ch (a : ascii) : char := N_of_ascii a.
Definition txt (s : string) : str := map ch (list_ascii_of_string s).

Arguments ch a%_char.
Arguments txt s%_string.

(** The two quote characters and the line feed, by code point. *)
Definition dquote : char := 34.
Definition squote : char := 39.
Definition newline : char := 10.

(** ** Character tests of the compiled patterns *)

Definition one (c x : char) : bool := x =? c.

Definition range (lo hi x : char) : bool := (lo <=? x) && (x <=? hi).

Fixpoint any_of (ps : list (char -> bool)) (x : char) : bool :=
  match ps with
  | [] => false
  | p :: ps' => p x || any_of ps' x
  end.

(** [.] without DOTALL: every character but the line feed. *)
Definition dot (x : char) : bool := negb (x =? newline).

(** [\s] on a [str] pattern: the Unicode white space characters. *)
Definition space (x : char) : bool :=
  any_of [range 9 13; range 28 32; one 133; one 160; one 5760;
          range 8192 8202; one 8232; one 8233; one 8239; one 8287;
          one 12288] x.

(** The lower case of an ASCII letter; every other character is left as it
    is. *)
Definition ascii_lower (x : char) : char :=
  if range 65 90 x then x + 32 else x.

(** A letter of the pattern under IGNORECASE.  The pattern letter [c] is a
    lower-case ASCII letter; a text character matches it when its lower case
    is [c], or when it is one of the further characters the [re] module
    treats as case variants of [c]: U+017F for [s], U+0130 and U+0131 for
    [i], U+212A for [k]. *)
Definition ignorecase_extra (c x : char) : bool :=
  (one (ch "s") c && one 383 x)
  || (one (ch "i") c && (one 304 x || one 305 x))
  || (one (ch "k") c && one 8490 x).

Definition ilit (c x : char) : bool :=
  (ascii_lower x =? c) || ignorecase_extra c x.

Definition ascii_alnum (x : char) : bool :=
  any_of [range (ch "a") (ch "z"); range (ch "A") (ch "Z");
          range (ch "0") (ch "9")] x.

(** [\w] on a [str] pattern: letters, digits and the underscore.  Above
    U+007F it is [str.isalnum], the Unicode character database of the
    interpreter, here [uni_alnum]. *)
Definition word (uni_alnum : char -> bool) (x : char) : bool :=
  if x <? 128 then ascii_alnum x || one (ch "_") x else uni_alnum x.

Local Open Scope nat_scope.

(** ** The backtracking matcher of [re]

    A compiled pattern.  [Rep greedy lo hi r] is a repeat of [r] between [lo]
    and [hi] times ([None]: no upper bound), greedy as [*], [+], [?] and
    [{m,n}] are, or lazy as [*?] is. *)

Inductive regex : Type :=
| Eps
| Chr (p : char -> bool)
| Cat (r1 r2 : regex)
| Alt (r1 r2 : regex)
| Rep (greedy : bool) (lo : nat) (hi : option nat) (r : regex)
| Group (r : regex).

(** What remains to be matched after a sub-pattern: it is given the rest of
    the text and answers with the text left after the whole match. *)
Definition cont := str -> option str.

Definition orelse (a b : option str) : option str :=
  match a with
  | Some x => Some x
  | None => b
  end.

(** [n] mandatory iterations of [step]. *)
Fixpoint times (n : nat) (step : str -> cont -> option str) (s : str)
  (k : cont) : option str :=
  match n with
  | O => k s
  | S n' => step s (fun s' => times n' step s' k)
  end.

(** At most [n] further iterations of [step]: a greedy repeat tries one more
    iteration before it leaves the loop, a lazy one leaves first.  As in
    [re], an iteration that consumed nothing ends the loop. *)
Fixpoint upto (greedy : bool) (n : nat) (step : str -> cont -> option str)
  (s : str) (k : cont) : option str :=
  match n with
  | O => k s
  | S n' =>
      let more :=
        step s (fun s' =>
                  if length s' <? length s
                  then upto greedy n' step s' k
                  else None) in
      if greedy then orelse more (k s) else orelse (k s) more
  end.

(** The number of optional iterations a repeat may still make once the
    mandatory ones are done: [hi - lo], or, without an upper bound, one per
    remaining character (each iteration consumes at least one). *)
Definition budget (lo : nat) (hi : option nat) (s : str) : nat :=
  match hi with
  | Some h => h - lo
  | None => length s
  end.

Fixpoint sre_match (r : regex) (s : str) (k : cont) {struct r} : option str :=
  match r with
  | Eps => k s
  | Chr p =>
      match s with
      | c :: s' => if p c then k s' else None
      | [] => None
      end
  | Cat r1 r2 => sre_match r1 s (fun s' => sre_match r2 s' k)
  | Alt r1 r2 => orelse (sre_match r1 s k) (sre_match r2 s k)
  | Rep g lo hi r' =>
      times lo (sre_match r') s
        (fun s' => upto g (budget lo hi s') (sre_match r') s' k)
  | Group r' => sre_match r' s k
  end.

(** The match of [r] at the start of [s]: the text left after it. *)
Definition match_at (r : regex) (s : str) : option str := sre_match r s Some.

(** [pattern.search(line)] followed by [.group()]: the first position, from
    the left, at which the pattern matches, and the text matched there. *)
Fixpoint search (r : regex) (s : str) : option str :=
  match match_at r s with
  | Some rest => Some (firstn (length s - length rest) s)
  | None =>
      match s with
      | [] => None
      | _ :: s' => search r s'
      end
  end.

(** ** The three patterns of [data_hunter] *)

Definition star (r : regex) : regex := Rep true 0 None r.
Definition plus (r : regex) : regex := Rep true 1 None r.
Definition opt (r : regex) : regex := Rep true 0 (Some 1) r.
Definition lazy_star (r : regex) : regex := Rep false 0 None r.

Fixpoint cats (rs : list regex) : regex :=
  match rs with
  | [] => Eps
  | r :: rs' => Cat r (cats rs')
  end.

(** The letters of a keyword, each matched ignoring case. *)
Definition keyword (w : string) : regex :=
  cats (map (fun c => Chr (ilit c)) (txt w)).

Definition letter : char -> bool :=
  any_of [range (ch "a") (ch "z"); range (ch "A") (ch "Z")].

Definition local_char : char -> bool :=
  any_of [range (ch "a") (ch "z"); range (ch "A") (ch "Z");
          range (ch "0") (ch "9");
          one (ch "."); one (ch "_"); one (ch "%"); one (ch "+");
          one (ch "-")].

Definition domain_char : char -> bool :=
  any_of [range (ch "a") (ch "z"); range (ch "A") (ch "Z");
          range (ch "0") (ch "9"); one (ch "."); one (ch "-")].

(** [[a-zA-Z0-9._%+-]+@[a-zA-Z0-9.-]+\.[a-zA-Z]{2,4}], no flags. *)
Definition email_regex : regex :=
  cats [plus (Chr local_char);
       Chr (one (ch "@"));
       plus (Chr domain_char);
       Chr (one (ch "."));
       Rep true 2 (Some 4) (Chr letter)].

Definition separator : char -> bool := any_of [one (ch ":"); one (ch "=")].
Definition quote : char -> bool := any_of [one squote; one dquote].

(** [\s*[:=]\s*['\"](.*?)['\"]], the tail the two assignment patterns
    share. *)
Definition assignment_tail : regex :=
  cats [star (Chr space);
       Chr separator;
       star (Chr space);
       Chr quote;
       Group (lazy_star (Chr dot));
       Chr quote].

(** [api[_-]?key\s*[:=]\s*['\"](.*?)['\"]] with IGNORECASE. *)
Definition api_key_regex : regex :=
  cats [keyword "api";
       opt (Chr (any_of [one (ch "_"); one (ch "-")]));
       keyword "key";
       assignment_tail].

(** [email_regex.search(line)], [api_key_regex.search(line)] and the
    [.group()] the alert prints: the specification's [matchEmail] and
    [matchApiKey]. *)
Definition match_email (line : str) : option str := search email_regex line.
Definition match_api_key (line : str) : option str :=
  search api_key_regex line.

Section Password.

Variable uni_alnum : char -> bool.

Definition word_or_quote : char -> bool :=
  any_of [word uni_alnum; one dquote].

(** [([\w\"]*password[\w\"]|password)*\s*[:=]\s*['\"](.*?)['\"]] with
    IGNORECASE. *)
Definition sensitive_data_regex : regex :=
  cats [star (Group (Alt (cats [star (Chr word_or_quote);
                              keyword "password";
                              Chr word_or_quote])
                        (keyword "password")));
       assignment_tail].

(** [sensitive_data_regex.search(line)] and its [.group()]: the
    specification's [matchPassword]. *)
Definition match_sensitive (line : str) : option str :=
  search sensitive_data_regex line.

End Password.

(** ** The language of a pattern

    What a pattern matches, without the order in which the matcher tries the
    alternatives. *)

Fixpoint iter (L : str -> Prop) (n : nat) (s : str) : Prop :=
  match n with
  | O => s = []
  | S n' => exists s1 s2, s = s1 ++ s2 /\ L s1 /\ iter L n' s2
  end.

(** The same with every iteration consuming something. *)
Fixpoint iter_ne (L : str -> Prop) (n : nat) (s : str) : Prop :=
  match n with
  | O => s = []
  | S n' => exists s1 s2, s = s1 ++ s2 /\ s1 <> [] /\ L s1 /\ iter_ne L n' s2
  end.

Definition within (lo : nat) (hi : option nat) (j : nat) : Prop :=
  match hi with
  | Some h => j <= h - lo
  | None => True
  end.

Fixpoint lang (r : regex) (s : str) : Prop :=
  match r with
  | Eps => s = []
  | Chr p => exists c, s = [c] /\ p c = true
  | Cat r1 r2 => exists s1 s2, s = s1 ++ s2 /\ lang r1 s1 /\ lang r2 s2
  | Alt r1 r2 => lang r1 s \/ lang r2 s
  | Rep _ lo hi r' =>
      exists s1 s2 j,
        s = s1 ++ s2 /\ iter (lang r') lo s1 /\ within lo hi j /\
        iter (lang r') j s2
  | Group r' => lang r' s
  end.

(** A step of the matcher agrees with a language [L]. *)
Definition sound_step (L : str -> Prop) (step : str -> cont -> option str) :=
  forall s k x,
    step s k = Some x -> exists s1 s2, s = s1 ++ s2 /\ L s1 /\ k s2 = Some x.

Definition complete_step (L : str -> Prop)
  (step : str -> cont -> option str) :=
  forall s1 s2 k, L s1 -> k s2 <> None -> step (s1 ++ s2) k <> None.

(** ** What the properties speak of

    Occurrences on a line, e-mail tokens, assignments, and results that
    agree up to the case of letters. *)

(** [t] occurs in [line]. *)
Definition occurs (t line : str) : Prop :=
  exists pre post, line = pre ++ t ++ post.

(** An e-mail token in the words of the specification: a local part of one
    or more letters, digits and [._%+-], the character [@], a domain of one
    or more letters, digits and [.-], a dot, and a top-level domain of two
    to four letters. *)
Definition email_token (t : str) : Prop :=
  exists l d tld,
    t = l ++ [ch "@"] ++ d ++ [ch "."] ++ tld /\
    l <> [] /\ Forall (fun c => local_char c = true) l /\
    d <> [] /\ Forall (fun c => domain_char c = true) d /\
    Forall (fun c => letter c = true) tld /\
    2 <= length tld <= 4.

(** A domain without dots: letters, digits and [-]. *)
Definition host (d : str) : Prop :=
  Forall (fun c => domain_char c = true /\ c <> ch ".") d.

Definition blanks (ws : str) : Prop := Forall (fun c => space c = true) ws.

(** A quoted assignment as the two assignment patterns end: [:] or [=],
    blanks, an opening quote, a value on one line, a closing quote.  What
    stands before the separator (a key, blanks) is not part of it. *)
Definition quoted_assignment (t : str) : Prop :=
  exists sep ws q1 value q2,
    t = [sep] ++ ws ++ [q1] ++ value ++ [q2] /\
    separator sep = true /\
    blanks ws /\
    quote q1 = true /\ quote q2 = true /\
    ~ In newline value.

(** A password word: the letters of [password], each in any of the cases
    the pattern accepts. *)
Definition password_word (w : str) : Prop := lang (keyword "password") w.

(** The keyword of the API-key pattern in any mix of upper and lower
    case. *)
Definition api_keyword (kw : str) : Prop :=
  map ascii_lower kw = txt "api_key" \/
  map ascii_lower kw = txt "api-key" \/
  map ascii_lower kw = txt "apikey".

(** A value between quotes that holds no quote itself and stays on one
    line. *)
Definition plain_value (value : str) : Prop :=
  Forall (fun c => quote c = false /\ c <> newline) value.

(** The text of an assignment: keyword, blanks, separator, blanks, and the
    value between its two quotes. *)
Definition assignment (kw ws1 : str) (sep : char) (ws2 : str) (q1 : char)
  (value : str) (q2 : char) : str :=
  kw ++ ws1 ++ [sep] ++ ws2 ++ [q1] ++ value ++ [q2].

(** Two texts that differ at most by the case of ASCII letters. *)
Definition same_nocase (s1 s2 : str) : Prop :=
  map ascii_lower s1 = map ascii_lower s2.

(** Two results of a matcher that are both empty, or both a match, with
    texts that differ at most by the case of ASCII letters. *)
Definition same_outcome (a b : option str) : Prop :=
  match a, b with
  | None, None => True
  | Some x, Some y => same_nocase x y
  | _, _ => False
  end.

(** What a search owes its caller: a match is an occurrence on the line of
    a word of the pattern, and an empty result says that the line holds
    none. *)
Definition search_result_ok (r : regex) (line : str) (res : option str)
  : Prop :=
  match res with
  | Some m => occurs m line /\ lang r m
  | None => forall t, occurs t line -> ~ lang r t
  end.

(** ** Definitions for the proofs *)

(** A greedy and a lazy run of one character test, by recursion on the
    text: what [p*] and [p*?] do, as the lemmas [star_chr] and
    [lazy_star_chr] show. *)
Fixpoint greedy_run (p : char -> bool) (s : str) (k : cont) : option str :=
  match s with
  | [] => k []
  | c :: s' => if p c then orelse (greedy_run p s' k) (k s) else k s
  end.

Fixpoint lazy_run (p : char -> bool) (s : str) (k : cont) : option str :=
  match s with
  | [] => k []
  | c :: s' => orelse (k s) (if p c then lazy_run p s' k else None)
  end.

(** The e-mail pattern from its dot on: what follows the greedy run over
    the domain. *)
Definition dot_tld : cont :=
  fun s =>
    sre_match (Chr (one (ch "."))) s
      (fun s' => sre_match (Rep true 2 (Some 4) (Chr letter)) s' Some).


(** A pattern whose character tests do not see the case of ASCII letters. *)
Definition case_blind_test (p : char -> bool) : Prop :=
  forall x y, ascii_lower x = ascii_lower y -> p x = p y.

Fixpoint case_blind (r : regex) : Prop :=
  match r with
  | Eps => True
  | Chr p => case_blind_test p
  | Cat r1 r2 => case_blind r1 /\ case_blind r2
  | Alt r1 r2 => case_blind r1 /\ case_blind r2
  | Rep _ _ _ r' => case_blind r'
  | Group r' => case_blind r'
  end.

Definition case_blind_step (step : str -> cont -> option str) : Prop :=
  forall s1 s2 k1 k2,
    same_nocase s1 s2 ->
    (forall u1 u2, same_nocase u1 u2 -> same_outcome (k1 u1) (k2 u2)) ->
    same_outcome (step s1 k1) (step s2 k2).

(** The test [p] gives the same answer on each upper-case ASCII letter and
    its lower-case letter. *)
Definition same_on_letters (p : char -> bool) : bool :=
  forallb (fun x => Bool.eqb (p x) (p (x + 32)%N))
    (map N.of_nat (List.seq 65 26)).

(** A step of the matcher that hands to its continuation only texts that
    are no longer than its own, and fails when the continuation always
    fails. *)
Definition local_step (step : str -> cont -> option str) : Prop :=
  (forall s k1 k2,
      (forall u, length u <= length s -> k1 u = k2 u) ->
      step s k1 = step s k2) /\
  (forall s, step s (fun _ => None) = None).

(** ** The scanner around the matchers

    What [data_hunter] does with a line, a file and a directory tree.  The
    operating system is seen through what the calls of the script return,
    the console through what a call of [print] does. *)

(** [line.strip()]: white space is removed at both ends. *)
Fixpoint lstrip (s : str) : str :=
  match s with
  | [] => []
  | c :: s' => if space c then lstrip s' else s
  end.

Definition rstrip (s : str) : str := rev (lstrip (rev s)).

Definition strip (s : str) : str := rstrip (lstrip s).

(** [str.lower()].  An ASCII character has its lower case whatever stands
    around it; the lower case of any other character, which may be several
    characters and may depend on the text before and after it, is the
    Unicode character database of the interpreter, here [uni_lower]. *)
Fixpoint lower_from (uni_lower : str -> char -> str -> str)
  (before s : str) : str :=
  match s with
  | [] => []
  | c :: s' =>
      (if (c <? 128)%N then [ascii_lower c] else uni_lower before c s')
        ++ lower_from uni_lower (before ++ [c]) s'
  end.

Definition lower (uni_lower : str -> char -> str -> str) (s : str) : str :=
  lower_from uni_lower [] s.

Fixpoint str_eqb (a b : str) : bool :=
  match a, b with
  | [], [] => true
  | x :: a', y :: b' => (x =? y)%N && str_eqb a' b'
  | _, _ => false
  end.

(** [s.endswith(suffix)]. *)
Definition endswith (s suffix : str) : bool :=
  (length suffix <=? length s)
  && str_eqb (skipn (length s - length suffix) s) suffix.

(** The tuple of extensions of the filter. *)
Definition extensions : list str :=
  [txt ".txt"; txt ".py"; txt ".log"; txt ".json"; txt ".md"; txt ".csv";
   txt ".xml"; txt ".env"].

(** [file.lower().endswith((...))]: the files that are opened. *)
Definition is_scanned (uni_lower : str -> char -> str -> str) (file : str)
  : bool :=
  existsb (endswith (lower uni_lower file)) extensions.

(** A number as an f-string and [print] show it. *)
Definition decimal (n : nat) : str :=
  txt (NilEmpty.string_of_uint (Nat.to_uint n)).

(** What the script has found and printed so far: the counter [hits] and
    the texts of the calls of [print] that returned, in order. *)
Record scan_state : Type := {
  hits : nat;
  printed : list str
}.

Definition start : scan_state := {| hits := 0; printed := [] |}.

(** How a piece of the script is left: it returns, or an exception leaves
    it, with its message.  Both come with what was counted and printed up
    to there. *)
Inductive outcome : Type :=
| Returns (st : scan_state)
| Raises (reason : str) (st : scan_state).

(** One statement after the other: an exception skips what follows. *)
Definition and_then (o : outcome) (next : scan_state -> outcome) : outcome :=
  match o with
  | Returns st => next st
  | Raises reason st => Raises reason st
  end.

Notation "o >>= next" := (and_then o next) (at level 50, left associativity).

(** The state in which a piece of the script is left. *)
Definition final (o : outcome) : scan_state :=
  match o with
  | Returns st => st
  | Raises _ st => st
  end.

(** One more text on the output. *)
Definition written (text : str) (st : scan_state) : scan_state :=
  {| hits := hits st; printed := printed st ++ [text] |}.

(** [hits += 1]. *)
Definition count_hit (st : scan_state) : outcome :=
  Returns {| hits := S (hits st); printed := printed st |}.

(** ["-" * 30]. *)
Definition rule : str := repeat (ch "-") 30.

(** What a call of [open] and the loop over the file handle give: [open]
    raises, or the handle yields lines and then ends, or raises after
    them. *)
Inductive file_view : Type :=
| OpenFails (reason : str)
| Yields (lines : list str) (failure : option str).

(** What [os.listdir] does on the directory given. *)
Inductive listdir_outcome : Type :=
| Listed
| NoSuchDirectory
| NotADirectory
| NoPermission
| OtherFailure.

(** The operating system as the script sees it. *)
Record os_view : Type := {
  listdir : str -> listdir_outcome;
  walk : str -> list (str * list str * list str);
  path_join : str -> str -> str;
  open_text : str -> file_view
}.

(** How a run ends: at the last line of the function, at an [exit()], or
    with an exception nobody catches. *)
Inductive ending : Type :=
| Finished
| Exited
| Uncaught.

(** The end of a run after its last statements: [normal] when they return;
    an exception that leaves them is caught by nobody. *)
Definition ends (normal : ending) (o : outcome) : scan_state * ending :=
  match o with
  | Returns st => (st, normal)
  | Raises _ st => (st, Uncaught)
  end.

Section Scanner.

Variable uni_alnum : char -> bool.
Variable uni_lower : str -> char -> str -> str.

(** The standard output.  Given the texts written so far and one more
    text, the text is written ([None]) or the call of [print] raises an
    exception, as [UnicodeEncodeError] does for a text the console cannot
    encode; the answer is then the message of the exception. *)
Variable stdout : list str -> str -> option str.

(** [print(text)]. *)
Definition print (text : str) (st : scan_state) : outcome :=
  match stdout (printed st) text with
  | None => Returns (written text st)
  | Some reason => Raises reason st
  end.

Definition alert_email (file : str) (line_num : nat) (line m : str)
  (st : scan_state) : outcome :=
  print (txt "[ALERT: EMAIL] Found in " ++ file
           ++ txt " (Line " ++ decimal line_num ++ txt ")") st
  >>= print (txt "    Line: " ++ line)
  >>= print (txt "Email found: " ++ m)
  >>= print rule
  >>= count_hit.

Definition alert_password (file : str) (line_num : nat) (m : str)
  (st : scan_state) : outcome :=
  print (txt "[ALERT: PASSWORD] Found in " ++ file
           ++ txt " (Line " ++ decimal line_num ++ txt ")") st
  >>= print (txt "   LEAKED PASSWORD: " ++ m)
  >>= print rule
  >>= count_hit.

Definition alert_api_key (file : str) (line_num : nat) (m : str)
  (st : scan_state) : outcome :=
  print (txt "[ALERT: API KEY] Found in " ++ file
           ++ txt " (Line " ++ decimal line_num ++ txt ")") st
  >>= print (txt "   LEAKED API_KEY: " ++ m)
  >>= print rule
  >>= count_hit.

(** [if match: ...]: the alert of a matcher that has found something. *)
Definition when_found (result : option str)
  (alert : str -> scan_state -> outcome) (st : scan_state) : outcome :=
  match result with
  | Some m => alert m st
  | None => Returns st
  end.

(** The body of the loop over the lines of a file. *)
Definition scan_line (file : str) (line_num : nat) (raw : str)
  (st : scan_state) : outcome :=
  let line := strip raw in
  let match_email := match_email line in
  let match_sensitive := match_sensitive uni_alnum line in
  let match_api_key := match_api_key line in
  when_found match_email (alert_email file line_num line) st
  >>= when_found match_sensitive (alert_password file line_num)
  >>= when_found match_api_key (alert_api_key file line_num).

(** [for line_num, line in enumerate(file_handler, 1)], from the number
    reached. *)
Fixpoint scan_lines (file : str) (line_num : nat) (lines : list str)
  (st : scan_state) : outcome :=
  match lines with
  | [] => Returns st
  | raw :: lines' =>
      scan_line file line_num raw st >>= scan_lines file (S line_num) lines'
  end.

(** The handler of [except Exception as e]. *)
Definition print_error (file reason : str) (st : scan_state) : outcome :=
  print (txt "[ERROR] Could not read file: " ++ file ++ txt ", due to "
           ++ reason) st.

(** The [try] block around one file.  Its handler catches what [open]
    raises, what reading a line raises, and what the [print] of an alert
    raises: the lines that follow are then not read.  What the [print] of
    the handler itself raises is caught by nobody. *)
Definition scan_file (file : str) (view : file_view) (st : scan_state)
  : outcome :=
  match view with
  | OpenFails reason => print_error file reason st
  | Yields lines failure =>
      match scan_lines file 1 lines st with
      | Returns st' =>
          match failure with
          | Some reason => print_error file reason st'
          | None => Returns st'
          end
      | Raises reason st' => print_error file reason st'
      end
  end.

(** [for file in files], in one directory. *)
Fixpoint scan_files (os : os_view) (root : str) (files : list str)
  (st : scan_state) : outcome :=
  match files with
  | [] => Returns st
  | file :: files' =>
      let file_path := path_join os root file in
      (if is_scanned uni_lower file
       then scan_file file (open_text os file_path) st
       else Returns st)
      >>= scan_files os root files'
  end.

(** [for root, dirs, files in directory_entries]. *)
Fixpoint scan_tree (os : os_view) (entries : list (str * list str * list str))
  (st : scan_state) : outcome :=
  match entries with
  | [] => Returns st
  | (root, _, files) :: entries' =>
      scan_files os root files st >>= scan_tree os entries'
  end.

(** [print("Total issues found so far:", hits)]. *)
Definition print_total (st : scan_state) : outcome :=
  print (txt "Total issues found so far: " ++ decimal (hits st)) st.

Definition data_hunter (os : os_view) (directory : str)
  : scan_state * ending :=
  match print ([newline] ++ txt "Scanning directory....") start with
  | Raises _ st => (st, Uncaught)
  | Returns st =>
      match listdir os directory with
      | NoSuchDirectory =>
          ends Exited
            (print (txt "Error: The directory '" ++ directory
                      ++ txt "' was not found.") st)
      | NotADirectory =>
          ends Exited
            (print (txt "Error: '" ++ directory
                      ++ txt "' is a file, not a directory.") st)
      | NoPermission =>
          ends Exited
            (print (txt "Error: You do not have permission to access '"
                      ++ directory ++ txt "'.") st)
      | OtherFailure => (st, Uncaught)
      | Listed =>
          ends Finished
            (print (txt "Directory scanned successfully.") st
             >>= print
                   ([newline] ++
                    txt "Opening Files and reading lines in each file.......")
             >>= print (txt "This might take some time")
             >>= scan_tree os (walk os directory)
             >>= print (txt "Operation completed succcessfully")
             >>= print_total)
      end
  end.

End Scanner.

(** ** Reading a file as text

    [open(file_path, "r", encoding="utf-8", errors="ignore")] and the loop
    over the handle, for a file whose bytes can all be read. *)

Local Open Scope N_scope.

Definition continuation (b : N) : bool := (128 <=? b) && (b <=? 191).

(** The second byte a first byte of a three-byte or a four-byte sequence
    admits. *)
Definition second_of_three (b0 b1 : N) : bool :=
  if b0 =? 224 then (160 <=? b1) && (b1 <=? 191)
  else if b0 =? 237 then (128 <=? b1) && (b1 <=? 159)
  else continuation b1.

Definition second_of_four (b0 b1 : N) : bool :=
  if b0 =? 240 then (144 <=? b1) && (b1 <=? 191)
  else if b0 =? 244 then (128 <=? b1) && (b1 <=? 143)
  else continuation b1.

(** The UTF-8 decoder with [errors="ignore"]: a byte that cannot start a
    sequence is left out, a sequence that breaks off is left out up to the
    byte that breaks it, and decoding goes on from there. *)
Fixpoint utf8_decode (bytes : list N) : str :=
  match bytes with
  | [] => []
  | b0 :: r0 =>
      if b0 <? 128 then b0 :: utf8_decode r0
      else if b0 <? 194 then utf8_decode r0
      else if b0 <? 224 then
        match r0 with
        | [] => []
        | b1 :: r1 =>
            if continuation b1
            then ((b0 - 192) * 64 + (b1 - 128)) :: utf8_decode r1
            else utf8_decode r0
        end
      else if b0 <? 240 then
        match r0 with
        | [] => []
        | b1 :: r1 =>
            if second_of_three b0 b1 then
              match r1 with
              | [] => []
              | b2 :: r2 =>
                  if continuation b2
                  then ((b0 - 224) * 4096 + (b1 - 128) * 64 + (b2 - 128))
                         :: utf8_decode r2
                  else utf8_decode r1
              end
            else utf8_decode r0
        end
      else if b0 <? 245 then
        match r0 with
        | [] => []
        | b1 :: r1 =>
            if second_of_four b0 b1 then
              match r1 with
              | [] => []
              | b2 :: r2 =>
                  if continuation b2 then
                    match r2 with
                    | [] => []
                    | b3 :: r3 =>
                        if continuation b3
                        then ((b0 - 240) * 262144 + (b1 - 128) * 4096
                              + (b2 - 128) * 64 + (b3 - 128))
                               :: utf8_decode r3
                        else utf8_decode r2
                    end
                  else utf8_decode r1
              end
            else utf8_decode r0
        end
      else utf8_decode r0
  end.

(** The lines a text handle yields with universal newlines: a line ends
    after a line feed, a carriage return or the two in a row, each given as
    one line feed; what stands after the last of them is a line without
    one. *)
Fixpoint text_lines (current text : str) : list str :=
  match text with
  | [] =>
      match current with
      | [] => []
      | _ :: _ => [current]
      end
  | c :: text' =>
      if c =? 13 then
        match text' with
        | c' :: text'' =>
            if c' =? 10
            then (current ++ [newline]) :: text_lines [] text''
            else (current ++ [newline]) :: text_lines [] text'
        | [] => [current ++ [newline]]
        end
      else if c =? 10 then (current ++ [newline]) :: text_lines [] text'
      else text_lines (current ++ [c]) text'
  end.

(** The view of a file that is opened and read without failure. *)
Definition readable (bytes : list N) : file_view :=
  Yields (text_lines [] (utf8_decode bytes)) None.

Local Open Scope nat_scope.

(** A pattern none of whose character tests accepts [c]. *)
Fixpoint rejects (c : char) (r : regex) : Prop :=
  match r with
  | Eps => True
  | Chr p => p c = false
  | Cat r1 r2 => rejects c r1 /\ rejects c r2
  | Alt r1 r2 => rejects c r1 /\ rejects c r2
  | Rep _ _ _ r' => rejects c r'
  | Group r' => rejects c r'
  end.

(** A step of the matcher that does the same on a text and on the text
    with [w] after it. *)
Definition pad_step (w : str) (step : str -> cont -> option str) : Prop :=
  forall s k k',
    (forall v, k' (v ++ w) = option_map (fun x => x ++ w) (k v)) ->
    step (s ++ w) k' = option_map (fun x => x ++ w) (step s k).

(** The number of matchers that find something on a line as the file
    handle yields it. *)
Definition found (result : option str) : nat :=
  match result with
  | Some _ => 1
  | None => 0
  end.

Definition findings (uni_alnum : char -> bool) (raw : str) : nat :=
  found (match_email (strip raw))
  + found (match_sensitive uni_alnum (strip raw))
  + found (match_api_key (strip raw)).

(** The lines a file handle yields before it ends or fails. *)
Definition yielded (view : file_view) : list str :=
  match view with
  | OpenFails _ => []
  | Yields lines _ => lines
  end.

(** The lines of all the files of a walk that pass the filter, in the
    order of the walk. *)
Definition lines_read (uni_lower : str -> char -> str -> str) (os : os_view)
  (entries : list (str * list str * list str)) : list str :=
  flat_map
    (fun entry =>
       flat_map
         (fun file =>
            if is_scanned uni_lower file
            then yielded (open_text os (path_join os (fst (fst entry)) file))
            else [])
         (snd entry))
    entries.

(** The number of rules ["-" * 30] among the texts printed. *)
Definition rules (texts : list str) : nat :=
  count_occ (list_eq_dec N.eq_dec) texts rule.

(** A console that writes every text. *)
Definition writes_all (stdout : list str -> str -> option str) : Prop :=
  forall out text, stdout out text = None.

(** A state with [j] more hits and [texts] more on the output. *)
Definition advance (st : scan_state) (j : nat) (texts : list str)
  : scan_state :=
  {| hits := j + hits st; printed := printed st ++ texts |}.

(** What a piece of the script does from the state [st] on, however it is
    left: it counts at most [bound] hits and prints one rule for each of
    them; and on a console that writes every text it returns, with [bound]
    hits counted. *)
Definition tame (stdout : list str -> str -> option str) (bound : nat)
  (o : outcome) (st : scan_state) : Prop :=
  exists j texts,
    final o = advance st j texts /\ rules texts = j /\ j <= bound /\
    (writes_all stdout -> j = bound /\ o = Returns (advance st j texts)).

(** The texts one line adds to the output, by matcher. *)
Definition where_found (file : str) (line_num : nat) : str :=
  file ++ txt " (Line " ++ decimal line_num ++ txt ")".

Definition email_texts (file : str) (line_num : nat) (line : str)
  (result : option str) : list str :=
  match result with
  | Some m =>
      [txt "[ALERT: EMAIL] Found in " ++ where_found file line_num;
       txt "    Line: " ++ line;
       txt "Email found: " ++ m;
       rule]
  | None => []
  end.

Definition password_texts (file : str) (line_num : nat)
  (result : option str) : list str :=
  match result with
  | Some m =>
      [txt "[ALERT: PASSWORD] Found in " ++ where_found file line_num;
       txt "   LEAKED PASSWORD: " ++ m;
       rule]
  | None => []
  end.

Definition api_key_texts (file : str) (line_num : nat)
  (result : option str) : list str :=
  match result with
  | Some m =>
      [txt "[ALERT: API KEY] Found in " ++ where_found file line_num;
       txt "   LEAKED API_KEY: " ++ m;
       rule]
  | None => []
  end.

(** A Unicode scalar value: a code point up to U+10FFFF that is not a
    surrogate. *)
Definition scalar (c : char) : Prop :=
  (c < 55296 \/ 57343 < c <= 1114111)%N.

(** The UTF-8 bytes of a character, as an encoder writes them: what a
    well-formed file holds. *)
Definition utf8_encode_char (c : char) : list N :=
  (if c <? 128 then [c]
   else if c <? 2048 then [192 + c / 64; 128 + c mod 64]
   else if c <? 65536
        then [224 + c / 4096; 128 + (c / 64) mod 64; 128 + c mod 64]
        else [240 + c / 262144; 128 + (c / 4096) mod 64;
              128 + (c / 64) mod 64; 128 + c mod 64])%N.

Definition utf8_encode (s : str) : list N := flat_map utf8_encode_char s.

(** A byte that starts no sequence: a continuation byte, [C0], [C1], or
    [F5] and above. *)
Definition stray (b : N) : Prop := (128 <= b < 194 \/ 245 <= b)%N.

(** A text without line feed and without carriage return. *)
Definition no_break (s : str) : Prop := ~ In newline s /\ ~ In 13%N s.




(** Two consoles for the examples: the first writes every text, the
    second the texts of ASCII characters only, as a console with the
    encoding [ascii] does. *)
Definition any_console : list str -> str -> option str := fun _ _ => None.

Definition ascii_console : list str -> str -> option str :=
  fun _ text =>
    if forallb (fun c => (c <? 128)%N) text
    then None
    else Some (txt "'ascii' codec can't encode character").

(** Two small systems for the examples.  Both hold a directory [proj]
    with the files [app.py] and [logo.png]; they differ by what opening
    [logo.png] gives. *)
Definition example_walk : list (str * list str * list str) :=
  [(txt "proj", [], [txt "app.py"; txt "logo.png"])].

Definition example_os (logo : file_view) : os_view :=
  {| listdir :=
       fun d => if str_eqb d (txt "proj") then Listed else NoSuchDirectory;
     walk := fun _ => example_walk;
     path_join := fun root file => root ++ txt "/" ++ file;
     open_text :=
       fun path =>
         if str_eqb path (txt "proj/app.py")
         then readable (txt "api_key = 'k'" ++ [13; 10]%N
                          ++ txt "mail a.b@c.de" ++ [10]%N)
         else logo |}.

(** A system whose only file, [app.py], holds the line [api_key = 'cle'] with
    U+00E9 for the last letter of the value. *)
Definition accent_os : os_view :=
  {| listdir := fun _ => Listed;
     walk := fun _ => [(txt "proj", [], [txt "app.py"])];
     path_join := fun root file => root ++ txt "/" ++ file;
     open_text :=
       fun _ =>
         readable
           (utf8_encode (txt "api_key = 'cl" ++ [233%N] ++ txt "'")) |}.

(** ** Facts on lists and options *)

Lemma orelse_some (a b : option str) (x : str) :
  orelse a b = Some x -> a = Some x \/ (a = None /\ b = Some x).
Proof. destruct a; simpl; intros H; [left | right]; auto. Qed.

Lemma orelse_not_none_l (a b : option str) : a <> None -> orelse a b <> None.
Proof. destruct a; simpl; congruence. Qed.

Lemma orelse_not_none_r (a b : option str) : b <> None -> orelse a b <> None.
Proof. destruct a; simpl; congruence. Qed.

Lemma orelse_none (a b : option str) :
  orelse a b = None <-> a = None /\ b = None.
Proof. destruct a; simpl; intuition congruence. Qed.

Lemma orelse_none_r (a : option str) : orelse a None = a.
Proof. destruct a; reflexivity. Qed.

Lemma firstn_span (t post : str) :
  firstn (length (t ++ post) - length post) (t ++ post) = t.
Proof.
  rewrite length_app, Nat.add_sub.
  rewrite firstn_app, Nat.sub_diag, firstn_all. simpl. apply app_nil_r.
Qed.

Lemma app_same_length (a a' b b' : str) :
  length a = length a' -> a ++ b = a' ++ b' -> a = a' /\ b = b'.
Proof.
  revert a'. induction a as [|x a IH]; intros [|x' a'] Hl H;
    try discriminate Hl.
  - auto.
  - simpl in H. injection H as -> H. simpl in Hl.
    destruct (IH a') as [-> ->]; auto.
Qed.

Lemma split_unique (x : char) (a b a' b' : str) :
  a ++ x :: b = a' ++ x :: b' -> ~ In x a -> ~ In x b -> a = a' /\ b = b'.
Proof.
  revert a'. induction a as [|y a IH]; intros a' H Ha Hb.
  - destruct a' as [|y' a']; simpl in H.
    + injection H as H. auto.
    + injection H as <- H. exfalso. apply Hb. rewrite H.
      apply in_or_app. right. left. reflexivity.
  - destruct a' as [|y' a']; simpl in H.
    + injection H as -> H. exfalso. apply Ha. left. reflexivity.
    + injection H as <- H. destruct (IH a' H) as [-> ->]; auto.
      intros Hin. apply Ha. right. exact Hin.
Qed.


(** ** The matcher and the language *)

Lemma iter_drop_empty (L : str -> Prop) (n : nat) (s : str) :
  iter L n s -> exists j, j <= n /\ iter_ne L j s.
Proof.
  revert s. induction n as [|n IH]; simpl; intros s H.
  - exists 0. simpl. auto.
  - destruct H as (u & v & -> & Hu & Hv).
    destruct (IH _ Hv) as (j & Hj & Hne).
    destruct u as [|c u].
    + exists j. simpl. split; [lia | exact Hne].
    + exists (S j). split; [lia |]. simpl.
      exists (c :: u), v. repeat split; auto. discriminate.
Qed.

Lemma iter_ne_iter (L : str -> Prop) (n : nat) (s : str) :
  iter_ne L n s -> iter L n s.
Proof.
  revert s. induction n as [|n IH]; simpl; intros s H; auto.
  destruct H as (u & v & -> & _ & Hu & Hv). exists u, v. auto.
Qed.

Lemma iter_ne_length (L : str -> Prop) (n : nat) (s : str) :
  iter_ne L n s -> n <= length s.
Proof.
  revert s. induction n as [|n IH]; simpl; intros s H; [lia |].
  destruct H as (u & v & -> & Hne & _ & Hv).
  apply IH in Hv. rewrite length_app.
  destruct u; [congruence | simpl; lia].
Qed.

Lemma times_sound (L : str -> Prop) step (n : nat) :
  sound_step L step -> sound_step (iter L n) (times n step).
Proof.
  intros Hs. induction n as [|n IH]; intros s k x H; simpl in *.
  - exists [], s. auto.
  - apply Hs in H. destruct H as (a & b & -> & Ha & H).
    apply IH in H. destruct H as (u & v & -> & Hu & H).
    exists (a ++ u), v. rewrite app_assoc. split; [reflexivity |].
    split; [exists a, u; auto | exact H].
Qed.

Lemma upto_sound (L : str -> Prop) step (g : bool) (n : nat) :
  sound_step L step ->
  forall s k x,
    upto g n step s k = Some x ->
    exists j s1 s2, j <= n /\ s = s1 ++ s2 /\ iter L j s1 /\ k s2 = Some x.
Proof.
  intros Hs. induction n as [|n IH]; intros s k x H; simpl in H.
  - exists 0, [], s. simpl. auto.
  - assert (Hstop : k s = Some x ->
              exists j s1 s2,
                j <= S n /\ s = s1 ++ s2 /\ iter L j s1 /\ k s2 = Some x).
    { intros Hk. exists 0, [], s. simpl. repeat split; auto. lia. }
    assert (Hmore :
              step s (fun s' => if length s' <? length s
                                then upto g n step s' k else None) = Some x ->
              exists j s1 s2,
                j <= S n /\ s = s1 ++ s2 /\ iter L j s1 /\ k s2 = Some x).
    { intros Hm. apply Hs in Hm. destruct Hm as (a & b & -> & Ha & Hm).
      destruct (length b <? length (a ++ b)); [| discriminate].
      apply IH in Hm. destruct Hm as (j & u & v & Hj & -> & Hu & Hk).
      exists (S j), (a ++ u), v. rewrite app_assoc.
      repeat split; auto; [lia | exists a, u; auto]. }
    destruct g; apply orelse_some in H; destruct H as [H | [_ H]]; auto.
Qed.

Lemma sre_match_sound (r : regex) : sound_step (lang r) (sre_match r).
Proof.
  induction r as [| p | r1 IH1 r2 IH2 | r1 IH1 r2 IH2 | g lo hi r IH | r IH];
    intros s k x H; simpl in H.
  - exists [], s. simpl. auto.
  - destruct s as [|c s]; [discriminate |].
    destruct (p c) eqn:Hp; [| discriminate].
    exists [c], s. simpl. repeat split; auto. exists c. auto.
  - apply IH1 in H. destruct H as (a & b & -> & Ha & H).
    apply IH2 in H. destruct H as (u & v & -> & Hu & H).
    exists (a ++ u), v. rewrite app_assoc. repeat split; auto.
    simpl. exists a, u. auto.
  - apply orelse_some in H. destruct H as [H | [_ H]].
    + apply IH1 in H. destruct H as (a & b & -> & Ha & H).
      exists a, b. simpl. auto.
    + apply IH2 in H. destruct H as (a & b & -> & Ha & H).
      exists a, b. simpl. auto.
  - apply (times_sound _ _ lo IH) in H.
    destruct H as (a & b & -> & Ha & H).
    apply (upto_sound _ _ g _ IH) in H.
    destruct H as (j & u & v & Hj & -> & Hu & H).
    destruct (iter_drop_empty _ _ _ Hu) as (j' & Hj' & Hne).
    exists (a ++ u), v. rewrite app_assoc. repeat split; auto.
    simpl. exists a, u, j'. repeat split; auto.
    + unfold within, budget in *. destruct hi; [lia | exact I].
    + apply iter_ne_iter. exact Hne.
  - apply IH in H. exact H.
Qed.

Lemma times_complete (L : str -> Prop) step (n : nat) :
  complete_step L step -> complete_step (iter L n) (times n step).
Proof.
  intros Hc. induction n as [|n IH]; intros s1 s2 k H Hk; simpl in *.
  - subst. exact Hk.
  - destruct H as (a & b & -> & Ha & Hb). rewrite <- app_assoc.
    apply Hc; [exact Ha |]. apply IH; assumption.
Qed.

Lemma upto_complete (L : str -> Prop) step (g : bool) :
  complete_step L step ->
  forall n j s1 s2 k,
    iter_ne L j s1 -> j <= n -> k s2 <> None ->
    upto g n step (s1 ++ s2) k <> None.
Proof.
  intros Hc. induction n as [|n IH]; intros j s1 s2 k H Hj Hk.
  - assert (j = 0) by lia. subst j. simpl in H. subst s1. exact Hk.
  - destruct j as [|j]; simpl in H.
    + subst s1. simpl.
      destruct g; [apply orelse_not_none_r | apply orelse_not_none_l];
        exact Hk.
    + destruct H as (a & b & -> & Hne & Ha & Hb). simpl.
      assert (Hmore :
                step ((a ++ b) ++ s2)
                  (fun s' => if length s' <? length ((a ++ b) ++ s2)
                             then upto g n step s' k else None) <> None).
      { rewrite <- app_assoc. apply Hc; [exact Ha |].
        replace (length (b ++ s2) <? length (a ++ b ++ s2)) with true.
        - apply (IH j); [exact Hb | lia | exact Hk].
        - symmetry. apply Nat.ltb_lt. rewrite (length_app a).
          destruct a; [congruence | simpl; lia]. }
      destruct g; [apply orelse_not_none_l | apply orelse_not_none_r];
        exact Hmore.
Qed.

Lemma sre_match_complete (r : regex) : complete_step (lang r) (sre_match r).
Proof.
  induction r as [| p | r1 IH1 r2 IH2 | r1 IH1 r2 IH2 | g lo hi r IH | r IH];
    intros s1 s2 k H Hk; simpl in H |- *.
  - subst. exact Hk.
  - destruct H as (c & -> & Hp). simpl. rewrite Hp. exact Hk.
  - destruct H as (a & b & -> & Ha & Hb). rewrite <- app_assoc.
    apply IH1; [exact Ha |]. apply IH2; assumption.
  - destruct H as [H | H].
    + apply orelse_not_none_l. apply IH1; assumption.
    + apply orelse_not_none_r. apply IH2; assumption.
  - destruct H as (a & b & j & -> & Ha & Hj & Hb). rewrite <- app_assoc.
    apply (times_complete _ _ lo IH); [exact Ha |].
    destruct (iter_drop_empty _ _ _ Hb) as (j' & Hj' & Hne).
    apply (upto_complete _ _ g IH _ j'); [exact Hne | | exact Hk].
    unfold within, budget in *. destruct hi; [lia |].
    apply iter_ne_length in Hne. rewrite length_app. lia.
  - apply IH; assumption.
Qed.

(** The matcher succeeds at the start of [s] exactly when a prefix of [s] is
    in the language, and what it consumes is in the language. *)
Lemma match_at_sound (r : regex) (s rest : str) :
  match_at r s = Some rest -> exists t, s = t ++ rest /\ lang r t.
Proof.
  intros H. apply sre_match_sound in H.
  destruct H as (t & u & -> & Ht & Hu). injection Hu as ->. exists t. auto.
Qed.

Lemma match_at_complete (r : regex) (t rest : str) :
  lang r t -> match_at r (t ++ rest) <> None.
Proof. intros H. apply sre_match_complete; [exact H | discriminate]. Qed.

(** ** The search *)

Lemma search_eq (r : regex) (s : str) :
  search r s =
  match match_at r s with
  | Some rest => Some (firstn (length s - length rest) s)
  | None => match s with [] => None | _ :: s' => search r s' end
  end.
Proof. destruct s; reflexivity. Qed.

Lemma search_some (r : regex) (s m : str) :
  search r s = Some m ->
  exists pre post,
    s = pre ++ m ++ post /\ match_at r (m ++ post) = Some post /\
    forall p q, s = p ++ q -> length p < length pre -> match_at r q = None.
Proof.
  revert m. induction s as [|c s IH]; intros m; rewrite search_eq;
    destruct (match_at r _) as [rest|] eqn:Hm; intros H.
  - destruct (match_at_sound _ _ _ Hm) as (t & Ht & _).
    symmetry in Ht. apply app_eq_nil in Ht. destruct Ht as [-> ->].
    assert (m = []) by (simpl in H; congruence). subst m.
    exists [], []. simpl. repeat split; auto. intros p q _ Hl. inversion Hl.
  - discriminate.
  - destruct (match_at_sound _ _ _ Hm) as (t & Ht & _).
    rewrite Ht, firstn_span in H.
    assert (m = t) by congruence. subst m.
    exists [], rest. simpl. rewrite <- Ht.
    repeat split; auto. intros p q _ Hl. inversion Hl.
  - destruct (IH _ H) as (pre & post & -> & Hat & Hfirst).
    exists (c :: pre), post. repeat split; auto.
    intros p q Hpq Hl. destruct p as [|c' p]; simpl in Hpq.
    + subst q. exact Hm.
    + injection Hpq as -> Hpq. apply (Hfirst p q Hpq). simpl in Hl. lia.
Qed.

Lemma search_none (r : regex) (s : str) :
  search r s = None -> forall p q, s = p ++ q -> match_at r q = None.
Proof.
  induction s as [|c s IH]; rewrite search_eq;
    destruct (match_at r _) eqn:Hm; try discriminate.
  - intros _ p q H. symmetry in H. apply app_eq_nil in H.
    destruct H as [_ ->]. exact Hm.
  - intros H p q Hpq. destruct p as [|c' p]; simpl in Hpq.
    + subst q. exact Hm.
    + injection Hpq as _ Hpq. apply (IH H p q Hpq).
Qed.

(** A match is an occurrence of a word of the language. *)
Lemma search_sound (r : regex) (s m : str) :
  search r s = Some m -> occurs m s /\ lang r m.
Proof.
  intros H. destruct (search_some _ _ _ H) as (pre & post & -> & Hat & _).
  split; [exists pre, post; reflexivity |].
  destruct (match_at_sound _ _ _ Hat) as (t & Ht & Hl).
  apply app_inv_tail in Ht. subst t. exact Hl.
Qed.

(** Every occurrence of a word of the language is found, or an earlier
    one. *)
Lemma search_complete (r : regex) (s t : str) :
  occurs t s -> lang r t -> search r s <> None.
Proof.
  intros (pre & post & ->) Hl Hnone.
  apply (match_at_complete r t post) in Hl. apply Hl.
  apply (search_none _ _ Hnone pre). reflexivity.
Qed.

Lemma search_ok (r : regex) (line : str) :
  search_result_ok r line (search r line).
Proof.
  unfold search_result_ok. destruct (search r line) as [m|] eqn:H.
  - apply search_sound. exact H.
  - intros t Hocc Hl. exact (search_complete _ _ _ Hocc Hl H).
Qed.

(** ** Termination: the budget of a repeat never ends a loop early *)

Lemma times_local step (n : nat) : local_step step -> local_step (times n step).
Proof.
  intros [Hl Hf]. induction n as [|n [IHl IHf]]; split; simpl.
  - intros s k1 k2 Hk. apply Hk. apply Nat.le_refl.
  - reflexivity.
  - intros s k1 k2 Hk. apply Hl. intros u Hu. apply IHl.
    intros v Hv. apply Hk. lia.
  - intros s. transitivity (step s (fun _ => None)); [| apply Hf].
    apply Hl. intros u _. apply IHf.
Qed.

Lemma upto_local step (g : bool) (n : nat) :
  local_step step -> local_step (upto g n step).
Proof.
  intros [Hl Hf]. induction n as [|n [IHl IHf]]; split; simpl.
  - intros s k1 k2 Hk. apply Hk. apply Nat.le_refl.
  - reflexivity.
  - intros s k1 k2 Hk. rewrite (Hk s (Nat.le_refl _)).
    replace (step s (fun s' => if length s' <? length s
                               then upto g n step s' k1 else None))
      with (step s (fun s' => if length s' <? length s
                              then upto g n step s' k2 else None));
      [reflexivity |].
    apply Hl. intros u Hu. destruct (length u <? length s); [| reflexivity].
    apply IHl. intros v Hv. symmetry. apply Hk. lia.
  - intros s.
    replace (step s (fun s' => if length s' <? length s
                               then upto g n step s' (fun _ => None)
                               else None))
      with (step s (fun _ => None)).
    + rewrite Hf. destruct g; reflexivity.
    + apply Hl. intros u _. destruct (length u <? length s);
        [symmetry; apply IHf | reflexivity].
Qed.

Lemma sre_match_local (r : regex) : local_step (sre_match r).
Proof.
  induction r as [| p | r1 [IH1 IF1] r2 [IH2 IF2] | r1 [IH1 IF1] r2 [IH2 IF2]
                 | g lo hi r IH | r IH]; simpl.
  - split; [intros s k1 k2 Hk; apply Hk; apply Nat.le_refl | reflexivity].
  - split.
    + intros [|c s] k1 k2 Hk; [reflexivity |].
      destruct (p c); [apply Hk; simpl; lia | reflexivity].
    + intros [|c s]; [reflexivity | destruct (p c); reflexivity].
  - split.
    + intros s k1 k2 Hk. apply IH1. intros u Hu. apply IH2.
      intros v Hv. apply Hk. lia.
    + intros s. transitivity (sre_match r1 s (fun _ => None));
        [| apply IF1].
      apply IH1. intros u _. apply IF2.
  - split.
    + intros s k1 k2 Hk. rewrite (IH1 s k1 k2 Hk), (IH2 s k1 k2 Hk).
      reflexivity.
    + intros s. rewrite IF1, IF2. reflexivity.
  - destruct (times_local _ lo IH) as [Tl Tf]. split.
    + intros s k1 k2 Hk. apply Tl. intros u Hu.
      apply (upto_local _ g (budget lo hi u) IH). intros v Hv. apply Hk. lia.
    + intros s.
      transitivity (times lo (sre_match r) s (fun _ => None)); [| apply Tf].
      apply Tl. intros u _. apply (upto_local _ g (budget lo hi u) IH).
  - exact IH.
Qed.

(** Any budget that covers the text gives the same result: a loop ends
    because the rest of the pattern matched or the text ran out, never
    because the budget did. *)
Lemma upto_budget step (g : bool) :
  local_step step ->
  forall n1 n2 s k,
    length s <= n1 -> length s <= n2 ->
    upto g n1 step s k = upto g n2 step s k.
Proof.
  intros [Hl Hf].
  assert (Hempty : forall n k, upto g n step [] k = k []).
  { intros [|n] k; simpl; [reflexivity |].
    replace (step [] (fun s' => if length s' <? 0
                                then upto g n step s' k else None))
      with (step [] (fun _ => None)) by (apply Hl; reflexivity).
    rewrite Hf. destruct g; [reflexivity | apply orelse_none_r]. }
  induction n1 as [|n1 IH]; intros n2 s k H1 H2.
  - destruct s; [| simpl in H1; lia]. rewrite !Hempty. reflexivity.
  - destruct n2 as [|n2].
    + destruct s; [| simpl in H2; lia]. rewrite !Hempty. reflexivity.
    + simpl.
      replace (step s (fun s' => if length s' <? length s
                                 then upto g n1 step s' k else None))
        with (step s (fun s' => if length s' <? length s
                                then upto g n2 step s' k else None));
        [reflexivity |].
      apply Hl. intros u Hu.
      destruct (length u <? length s) eqn:Hlt; [| reflexivity].
      apply Nat.ltb_lt in Hlt. symmetry. apply IH; lia.
Qed.

Lemma repeat_budget (r : regex) (g : bool) (n : nat) (s : str) (k : cont) :
  length s <= n ->
  upto g n (sre_match r) s k = upto g (budget 0 None s) (sre_match r) s k.
Proof.
  intros H. apply upto_budget; [apply sre_match_local | exact H |].
  apply Nat.le_refl.
Qed.

(** ** Runs of one character test *)

Lemma upto_chr_greedy (p : char -> bool) (n : nat) (s : str) (k : cont) :
  length s <= n -> upto true n (sre_match (Chr p)) s k = greedy_run p s k.
Proof.
  revert s. induction n as [|n IH]; intros s Hn.
  - destruct s; [reflexivity | simpl in Hn; lia].
  - destruct s as [|c s]; [reflexivity |].
    cbn [upto sre_match greedy_run]. destruct (p c); [| reflexivity].
    replace (length s <? length (c :: s)) with true
      by (symmetry; apply Nat.ltb_lt; simpl; lia).
    rewrite IH by (simpl in Hn; lia). reflexivity.
Qed.

Lemma upto_chr_lazy (p : char -> bool) (n : nat) (s : str) (k : cont) :
  length s <= n -> upto false n (sre_match (Chr p)) s k = lazy_run p s k.
Proof.
  revert s. induction n as [|n IH]; intros s Hn.
  - destruct s; [reflexivity | simpl in Hn; lia].
  - destruct s as [|c s].
    + cbn [upto sre_match lazy_run]. destruct (k []); reflexivity.
    + cbn [upto sre_match lazy_run]. destruct (p c); [| reflexivity].
      replace (length s <? length (c :: s)) with true
        by (symmetry; apply Nat.ltb_lt; simpl; lia).
      rewrite IH by (simpl in Hn; lia). reflexivity.
Qed.

Lemma star_chr (p : char -> bool) (s : str) (k : cont) :
  sre_match (star (Chr p)) s k = greedy_run p s k.
Proof. apply upto_chr_greedy. apply Nat.le_refl. Qed.

Lemma lazy_star_chr (p : char -> bool) (s : str) (k : cont) :
  sre_match (lazy_star (Chr p)) s k = lazy_run p s k.
Proof. apply upto_chr_lazy. apply Nat.le_refl. Qed.

Lemma plus_chr (p : char -> bool) (s : str) (k : cont) :
  sre_match (plus (Chr p)) s k =
  match s with
  | [] => None
  | c :: s' => if p c then greedy_run p s' k else None
  end.
Proof.
  destruct s as [|c s]; [reflexivity |].
  cbn [plus sre_match times]. destruct (p c); [| reflexivity].
  apply upto_chr_greedy. apply Nat.le_refl.
Qed.

Lemma opt_chr (p : char -> bool) (s : str) (k : cont) :
  sre_match (opt (Chr p)) s k =
  match s with
  | [] => k []
  | c :: s' => if p c then orelse (k s') (k s) else k s
  end.
Proof.
  destruct s as [|c s]; [reflexivity |].
  cbn [opt sre_match times budget upto Nat.sub].
  destruct (p c); [| reflexivity].
  replace (length s <? length (c :: s)) with true
    by (symmetry; apply Nat.ltb_lt; simpl; lia).
  reflexivity.
Qed.

(** A greedy run over characters that all pass the test, up to one that does
    not: when the rest of the pattern matches there, that is the match. *)
Lemma greedy_run_stop (p : char -> bool) (ws rest x : str) (c : char)
  (k : cont) :
  Forall (fun a => p a = true) ws -> p c = false ->
  k (c :: rest) = Some x -> greedy_run p (ws ++ c :: rest) k = Some x.
Proof.
  intros Hws Hc Hk. induction Hws as [|a ws Ha _ IH]; simpl.
  - rewrite Hc. exact Hk.
  - rewrite Ha, IH. reflexivity.
Qed.

(** A lazy run over characters at which the rest of the pattern fails. *)
Lemma lazy_run_skip (p : char -> bool) (v rest x : str) (k : cont) :
  Forall (fun a => p a = true /\ forall u, k (a :: u) = None) v ->
  k rest = Some x -> lazy_run p (v ++ rest) k = Some x.
Proof.
  intros Hv Hk. induction Hv as [|a v [Ha Hfail] _ IH]; simpl.
  - destruct rest; simpl; rewrite Hk; reflexivity.
  - rewrite Hfail, Ha. simpl. exact IH.
Qed.

(** A greedy run walks through characters at which the rest of the pattern
    cannot start. *)
Lemma greedy_run_through (p : char -> bool) (ws rest : str) (k : cont) :
  Forall (fun a => p a = true /\ forall u, k (a :: u) = None) ws ->
  greedy_run p (ws ++ rest) k = greedy_run p rest k.
Proof.
  intros H. induction H as [|a ws [Ha Hfail] _ IH]; simpl; [reflexivity |].
  rewrite Ha, Hfail, orelse_none_r. exact IH.
Qed.


Lemma greedy_run_none (p : char -> bool) (s : str) (k : cont) :
  greedy_run p s k = None ->
  forall a b, s = a ++ b -> Forall (fun c => p c = true) a -> k b = None.
Proof.
  induction s as [|c s IH]; simpl; intros H a b Hs Ha.
  - symmetry in Hs. apply app_eq_nil in Hs. destruct Hs as [_ ->]. exact H.
  - destruct a as [|c' a]; simpl in Hs.
    + subst b. destruct (p c); [| exact H].
      apply orelse_none in H. apply H.
    + injection Hs as <- Hs. inversion Ha as [|? ? Hc Ha']; subst.
      rewrite Hc in H. apply orelse_none in H. destruct H as [H _].
      apply (IH H a b); [reflexivity | exact Ha'].
Qed.

(** The match a greedy run gives is the one after its longest prefix with
    which the rest of the pattern matches. *)
Lemma greedy_run_longest (p : char -> bool) (s x : str) (k : cont) :
  greedy_run p s k = Some x ->
  exists a b,
    s = a ++ b /\ Forall (fun c => p c = true) a /\ k b = Some x /\
    forall a' b',
      s = a' ++ b' -> Forall (fun c => p c = true) a' ->
      length a < length a' -> k b' = None.
Proof.
  induction s as [|c s IH]; simpl; intros H.
  - exists [], []. repeat split; auto. intros a' b' Hs _ Hlen.
    symmetry in Hs. apply app_eq_nil in Hs. destruct Hs as [-> _].
    inversion Hlen.
  - assert (Hstop : k (c :: s) = Some x ->
              (forall a' b', s = a' ++ b' ->
                             Forall (fun c => p c = true) (c :: a') ->
                             k b' = None) ->
              exists a b,
                c :: s = a ++ b /\ Forall (fun c => p c = true) a /\
                k b = Some x /\
                forall a' b',
                  c :: s = a' ++ b' -> Forall (fun c => p c = true) a' ->
                  length a < length a' -> k b' = None).
    { intros Hk Hlater. exists [], (c :: s). repeat split; auto.
      intros a' b' Hs Ha' Hlen. destruct a' as [|c' a']; [inversion Hlen |].
      simpl in Hs. injection Hs as <- Hs. apply (Hlater a' b' Hs Ha'). }
    destruct (p c) eqn:Hc.
    + apply orelse_some in H. destruct H as [H | [Hnone H]].
      * destruct (IH H) as (a & b & -> & Ha & Hk & Hmax).
        exists (c :: a), b. repeat split; auto.
        intros a' b' Hs Ha' Hlen. destruct a' as [|c' a'];
          [simpl in Hlen; lia |].
        simpl in Hs. injection Hs as <- Hs.
        inversion Ha' as [|? ? _ Ha'']; subst.
        apply (Hmax a' b' Hs Ha''). simpl in Hlen. lia.
      * apply Hstop; [exact H |]. intros a' b' Hs Ha'.
        inversion Ha' as [|? ? _ Ha'']; subst.
        apply (greedy_run_none _ _ _ Hnone a' b'); [reflexivity | exact Ha''].
    + apply Hstop; [exact H |]. intros a' b' _ Ha'.
      inversion Ha' as [|? ? Hc' _]; subst. congruence.
Qed.

(** ** A bounded repeat of one character test *)

Lemma upto_chr_nil (p : char -> bool) (g : bool) (n : nat) (k : cont) :
  upto g n (sre_match (Chr p)) [] k = k [].
Proof.
  destruct n; simpl; [reflexivity |].
  destruct g; [reflexivity | apply orelse_none_r].
Qed.

Lemma upto_chr_cons (p : char -> bool) (n : nat) (c : char) (s : str)
  (k : cont) :
  upto true (S n) (sre_match (Chr p)) (c :: s) k =
  if p c then orelse (upto true n (sre_match (Chr p)) s k) (k (c :: s))
  else k (c :: s).
Proof.
  cbn [upto sre_match]. destruct (p c); [| reflexivity].
  replace (length s <? length (c :: s)) with true
    by (symmetry; apply Nat.ltb_lt; simpl; lia).
  reflexivity.
Qed.

Lemma upto_chr_suffix (p : char -> bool) (n : nat) (s : str) :
  exists r, upto true n (sre_match (Chr p)) s Some = Some r /\
            length r <= length s.
Proof.
  revert s. induction n as [|n IH]; intros s.
  - exists s. simpl. auto.
  - destruct s as [|c s]; [exists []; rewrite upto_chr_nil; auto |].
    rewrite upto_chr_cons. destruct (p c).
    + destruct (IH s) as (r & -> & Hr). exists r. simpl.
      split; [reflexivity | lia].
    + exists (c :: s). auto.
Qed.

Lemma upto_chr_letters (p : char -> bool) (n : nat) (tl q : str) :
  Forall (fun c => p c = true) tl -> length tl <= n ->
  exists r, upto true n (sre_match (Chr p)) (tl ++ q) Some = Some r /\
            length r <= length q.
Proof.
  intros H. revert n. induction H as [|c tl Hc _ IH]; intros n Hn.
  - apply upto_chr_suffix.
  - destruct n as [|n]; [simpl in Hn; lia |].
    cbn [app]. rewrite upto_chr_cons, Hc.
    destruct (IH n) as (r & -> & Hr); [simpl in Hn; lia |].
    exists r. auto.
Qed.


(** ** Facts on the character tests *)

Lemma one_true (c x : char) : one c x = true -> x = c.
Proof. apply N.eqb_eq. Qed.

Lemma one_false (p : char -> bool) (x c : char) :
  p x = false -> p c = true -> one x c = false.
Proof.
  intros Hx Hc. unfold one. apply N.eqb_neq. intros ->. congruence.
Qed.

Lemma separator_cases (c : char) :
  separator c = true -> c = ch ":" \/ c = ch "=".
Proof.
  unfold separator, any_of. intros H.
  apply orb_true_iff in H. destruct H as [H | H];
    [left; apply one_true; exact H |].
  apply orb_true_iff in H. destruct H as [H | H];
    [right; apply one_true; exact H | discriminate].
Qed.

Lemma quote_cases (c : char) : quote c = true -> c = squote \/ c = dquote.
Proof.
  unfold quote, any_of. intros H.
  apply orb_true_iff in H. destruct H as [H | H];
    [left; apply one_true; exact H |].
  apply orb_true_iff in H. destruct H as [H | H];
    [right; apply one_true; exact H | discriminate].
Qed.

Lemma separator_not_space (c : char) : separator c = true -> space c = false.
Proof. intros H. destruct (separator_cases _ H); subst c; reflexivity. Qed.

Lemma quote_not_space (c : char) : quote c = true -> space c = false.
Proof. intros H. destruct (quote_cases _ H); subst c; reflexivity. Qed.

Lemma ilit_lower (c x : char) : ascii_lower x = c -> ilit c x = true.
Proof. intros H. unfold ilit. rewrite H, N.eqb_refl. reflexivity. Qed.

Lemma ascii_lower_cases (x c : char) :
  ascii_lower x = c -> x = c \/ (x + 32 = c /\ 65 <= x <= 90)%N.
Proof.
  unfold ascii_lower, range. intros H.
  destruct (N.leb_spec 65 x); destruct (N.leb_spec x 90); simpl in H; auto.
Qed.

Lemma nocase_cases (x y : char) :
  ascii_lower x = ascii_lower y ->
  x = y \/ ((65 <= x <= 90)%N /\ y = (x + 32)%N) \/
  ((65 <= y <= 90)%N /\ x = (y + 32)%N).
Proof.
  unfold ascii_lower, range. intros H.
  destruct (N.leb_spec 65 x); destruct (N.leb_spec x 90);
    destruct (N.leb_spec 65 y); destruct (N.leb_spec y 90);
    simpl in H; lia.
Qed.

Lemma upper_letter_listed (x : char) :
  (65 <= x <= 90)%N -> In x (map N.of_nat (List.seq 65 26)).
Proof.
  intros H. rewrite <- (N2Nat.id x). apply in_map. apply in_seq. lia.
Qed.

Lemma same_on_letters_blind (p : char -> bool) :
  same_on_letters p = true -> case_blind_test p.
Proof.
  unfold same_on_letters. intros H x y Hxy. rewrite forallb_forall in H.
  destruct (nocase_cases _ _ Hxy) as [-> | [[Hx ->] | [Hy ->]]].
  - reflexivity.
  - apply eqb_prop. apply H. apply upper_letter_listed. exact Hx.
  - symmetry. apply eqb_prop. apply H. apply upper_letter_listed. exact Hy.
Qed.

(** ** Words of the three languages *)

Lemma lang_rep_chr (g : bool) (p : char -> bool) (s : str) :
  Forall (fun c => p c = true) s -> lang (Rep g 0 None (Chr p)) s.
Proof.
  intros H. cbn [lang]. exists [], s, (length s).
  repeat split; simpl; auto.
  induction H as [|c s Hc _ IH]; simpl; [reflexivity |].
  exists [c], s. repeat split; auto. exists c. auto.
Qed.

Lemma lang_chr (p : char -> bool) (c : char) :
  p c = true -> lang (Chr p) [c].
Proof. intros H. exists c. auto. Qed.

Lemma lang_cat (r1 r2 : regex) (s1 s2 : str) :
  lang r1 s1 -> lang r2 s2 -> lang (Cat r1 r2) (s1 ++ s2).
Proof. intros H1 H2. exists s1, s2. auto. Qed.

Lemma lang_last (r : regex) (s : str) : lang r s -> lang (Cat r Eps) s.
Proof. intros H. exists s, []. rewrite app_nil_r. simpl. auto. Qed.

Lemma lang_assignment_tail (sep q1 q2 : char) (ws value : str) :
  separator sep = true ->
  blanks ws ->
  quote q1 = true -> quote q2 = true ->
  ~ In newline value ->
  lang assignment_tail ([sep] ++ ws ++ [q1] ++ value ++ [q2]).
Proof.
  intros Hsep Hws Hq1 Hq2 Hval. unfold assignment_tail. cbn [cats].
  apply (lang_cat _ _ []); [apply lang_rep_chr; constructor |].
  apply (lang_cat _ _ [sep]); [apply lang_chr; exact Hsep |].
  apply (lang_cat _ _ ws); [apply lang_rep_chr; exact Hws |].
  apply (lang_cat _ _ [q1]); [apply lang_chr; exact Hq1 |].
  apply (lang_cat _ _ value).
  - cbn [lang]. apply (lang_rep_chr false). apply Forall_forall.
    intros c Hc. unfold dot. apply negb_true_iff. apply N.eqb_neq.
    intros ->. contradiction.
  - apply lang_last. apply lang_chr. exact Hq2.
Qed.

Lemma lang_assignment_tail_nonempty (s : str) :
  lang assignment_tail s -> s <> [].
Proof.
  unfold assignment_tail. cbn [cats lang].
  intros (s1 & s2 & -> & _ & s3 & s4 & -> & (c & -> & _) & _) H.
  apply app_eq_nil in H. destruct H as [_ H]. discriminate.
Qed.

Lemma lang_email_has_at (s : str) : lang email_regex s -> In (ch "@") s.
Proof.
  unfold email_regex. cbn [cats lang].
  intros (s1 & s2 & -> & _ & s3 & s4 & -> & (c & -> & Hc) & _).
  apply N.eqb_eq in Hc. subst c. apply in_or_app. right. left. reflexivity.
Qed.

Lemma iter_chr (p : char -> bool) (n : nat) (s : str) :
  iter (lang (Chr p)) n s <->
  Forall (fun c => p c = true) s /\ length s = n.
Proof.
  revert s. induction n as [|n IH]; intros s; simpl.
  - split.
    + intros ->. auto.
    + intros [_ H]. apply length_zero_iff_nil. exact H.
  - split.
    + intros (u & v & -> & (c & -> & Hc) & Hv). apply IH in Hv.
      destruct Hv as [Hv Hl]. simpl. auto.
    + intros [Hs Hl]. destruct s as [|c s]; [discriminate Hl |].
      inversion Hs as [|? ? Hc Hs']; subst.
      exists [c], s. repeat split; [exists c; auto |].
      apply IH. simpl in Hl. auto.
Qed.

Lemma lang_rep_chr_inv (g : bool) (lo : nat) (hi : option nat)
  (p : char -> bool) (s : str) :
  lang (Rep g lo hi (Chr p)) s ->
  Forall (fun c => p c = true) s /\
  exists j, within lo hi j /\ length s = lo + j.
Proof.
  cbn [lang]. intros (s1 & s2 & j & -> & H1 & Hj & H2).
  apply iter_chr in H1. apply iter_chr in H2.
  destruct H1 as [F1 L1], H2 as [F2 L2]. split.
  - apply Forall_app. auto.
  - exists j. rewrite length_app. split; [exact Hj | lia].
Qed.

Lemma lang_rep_chr_intro (g : bool) (lo : nat) (hi : option nat)
  (p : char -> bool) (s : str) :
  Forall (fun c => p c = true) s ->
  lo <= length s -> within lo hi (length s - lo) ->
  lang (Rep g lo hi (Chr p)) s.
Proof.
  intros Hs Hlo Hhi. cbn [lang].
  exists (firstn lo s), (skipn lo s), (length s - lo).
  rewrite firstn_skipn. split; [reflexivity |].
  rewrite <- (firstn_skipn lo s) in Hs. apply Forall_app in Hs.
  destruct Hs as [H1 H2].
  split; [| split; [exact Hhi |]]; apply iter_chr; split; auto.
  - apply firstn_length_le. exact Hlo.
  - apply length_skipn.
Qed.

Lemma email_token_lang (t : str) : email_token t <-> lang email_regex t.
Proof.
  unfold email_token, email_regex. cbn [cats]. split.
  - intros (l & d & tld & -> & Hl & Fl & Hd & Fd & Ft & Hlen).
    apply lang_cat.
    { apply lang_rep_chr_intro; [exact Fl | | exact I].
      destruct l; [congruence | simpl; lia]. }
    apply lang_cat; [apply lang_chr; reflexivity |].
    apply lang_cat.
    { apply lang_rep_chr_intro; [exact Fd | | exact I].
      destruct d; [congruence | simpl; lia]. }
    apply lang_cat; [apply lang_chr; reflexivity |].
    apply lang_last. apply lang_rep_chr_intro; [exact Ft | lia |].
    simpl. lia.
  - intros (l & s1 & -> & Hl & x & s2 & -> & (c1 & -> & Hc1) & d & s3 & ->
            & Hd & y & s4 & -> & (c2 & -> & Hc2) & tld & e & -> & Ht & ->).
    apply one_true in Hc1. apply one_true in Hc2. subst c1 c2.
    apply lang_rep_chr_inv in Hl. destruct Hl as [Fl (j1 & _ & L1)].
    apply lang_rep_chr_inv in Hd. destruct Hd as [Fd (j2 & _ & L2)].
    apply lang_rep_chr_inv in Ht. destruct Ht as [Ft (j3 & Hj3 & L3)].
    exists l, d, tld. rewrite app_nil_r.
    split; [reflexivity |].
    split; [intros ->; simpl in L1; lia |].
    split; [exact Fl |].
    split; [intros ->; simpl in L2; lia |].
    split; [exact Fd |].
    split; [exact Ft |]. simpl in Hj3. lia.
Qed.

(** ** The case of ASCII letters *)

Lemma same_nocase_length (s1 s2 : str) :
  same_nocase s1 s2 -> length s1 = length s2.
Proof.
  intros H. apply (f_equal (@length char)) in H.
  rewrite !length_map in H. exact H.
Qed.

Lemma same_nocase_app (a1 a2 b1 b2 : str) :
  same_nocase a1 a2 -> same_nocase b1 b2 -> same_nocase (a1 ++ b1) (a2 ++ b2).
Proof.
  unfold same_nocase. intros Ha Hb. rewrite !map_app, Ha, Hb. reflexivity.
Qed.

Lemma same_nocase_firstn (n : nat) (s1 s2 : str) :
  same_nocase s1 s2 -> same_nocase (firstn n s1) (firstn n s2).
Proof.
  unfold same_nocase. intros H. rewrite <- !firstn_map, H. reflexivity.
Qed.

Lemma same_outcome_orelse (a b a' b' : option str) :
  same_outcome a b -> same_outcome a' b' ->
  same_outcome (orelse a a') (orelse b b').
Proof. destruct a, b; simpl; intros H H'; try contradiction; assumption. Qed.

Lemma same_outcome_none (a b : option str) :
  same_outcome a b -> (a = None <-> b = None).
Proof.
  destruct a, b; simpl; intros H; try contradiction; split; congruence.
Qed.

Lemma times_case_blind step (n : nat) :
  case_blind_step step -> case_blind_step (times n step).
Proof.
  intros Hs. induction n as [|n IH]; intros s1 s2 k1 k2 Hss Hk; simpl.
  - apply Hk. exact Hss.
  - apply Hs; [exact Hss |]. intros u1 u2 Hu. apply IH; assumption.
Qed.

Lemma upto_case_blind step (g : bool) (n : nat) :
  case_blind_step step -> case_blind_step (upto g n step).
Proof.
  intros Hs. induction n as [|n IH]; intros s1 s2 k1 k2 Hss Hk; simpl.
  - apply Hk. exact Hss.
  - assert (Hmore :
      same_outcome
        (step s1 (fun s' => if length s' <? length s1
                            then upto g n step s' k1 else None))
        (step s2 (fun s' => if length s' <? length s2
                            then upto g n step s' k2 else None))).
    { apply Hs; [exact Hss |]. intros u1 u2 Hu.
      rewrite (same_nocase_length _ _ Hu), (same_nocase_length _ _ Hss).
      destruct (length u2 <? length s2); [| exact I].
      apply IH; assumption. }
    destruct g; apply same_outcome_orelse; auto.
Qed.

Lemma sre_match_case_blind (r : regex) :
  case_blind r -> case_blind_step (sre_match r).
Proof.
  induction r as [| p | r1 IH1 r2 IH2 | r1 IH1 r2 IH2 | g lo hi r IH | r IH];
    intros Hb s1 s2 k1 k2 Hss Hk; simpl in Hb |- *.
  - apply Hk. exact Hss.
  - destruct s1 as [|c1 s1], s2 as [|c2 s2]; try discriminate Hss;
      [exact I |].
    injection Hss as Hc Hss. rewrite (Hb _ _ Hc).
    destruct (p c2); [apply Hk; exact Hss | exact I].
  - destruct Hb as [Hb1 Hb2]. apply IH1; [exact Hb1 | exact Hss |].
    intros u1 u2 Hu. apply IH2; assumption.
  - destruct Hb as [Hb1 Hb2]. apply same_outcome_orelse;
      [apply IH1 | apply IH2]; assumption.
  - apply times_case_blind; [apply IH; exact Hb | exact Hss |].
    intros u1 u2 Hu.
    replace (budget lo hi u1) with (budget lo hi u2)
      by (unfold budget; destruct hi;
          [reflexivity | symmetry; apply same_nocase_length; exact Hu]).
    apply upto_case_blind; [apply IH; exact Hb | exact Hu | exact Hk].
  - apply IH; assumption.
Qed.

Lemma search_case_blind (r : regex) (s1 s2 : str) :
  case_blind r -> same_nocase s1 s2 ->
  same_outcome (search r s1) (search r s2).
Proof.
  intros Hb. revert s2. induction s1 as [|c1 s1 IH]; intros s2 Hss;
    rewrite (search_eq r s2), search_eq.
  - destruct s2; [| discriminate Hss].
    assert (H : same_outcome (match_at r []) (match_at r [])).
    { apply sre_match_case_blind; [exact Hb | reflexivity |].
      intros u1 u2 Hu. exact Hu. }
    destruct (match_at r []); [reflexivity | exact I].
  - destruct s2 as [|c2 s2]; [discriminate Hss |].
    assert (H : same_outcome (match_at r (c1 :: s1)) (match_at r (c2 :: s2))).
    { apply sre_match_case_blind; [exact Hb | exact Hss |].
      intros u1 u2 Hu. exact Hu. }
    destruct (match_at r (c1 :: s1)) as [r1|], (match_at r (c2 :: s2)) as [r2|];
      simpl in H; try contradiction.
    + cbn [same_outcome].
      rewrite (same_nocase_length _ _ H), (same_nocase_length _ _ Hss).
      apply same_nocase_firstn. exact Hss.
    + apply IH. injection Hss as _ Hss. exact Hss.
Qed.

Ltac blind_tests :=
  cbn [case_blind cats keyword txt list_ascii_of_string map star opt
         lazy_star plus];
  repeat match goal with
    | |- _ /\ _ => split
    | |- True => exact I
    | |- case_blind_test _ =>
        apply same_on_letters_blind; vm_compute; reflexivity
    end.

Lemma assignment_tail_case_blind : case_blind assignment_tail.
Proof. unfold assignment_tail. blind_tests. Qed.

Lemma api_key_regex_case_blind : case_blind api_key_regex.
Proof.
  unfold api_key_regex. cbn [case_blind cats]. repeat split;
    try exact assignment_tail_case_blind; blind_tests.
Qed.

Lemma sensitive_data_regex_case_blind (uni_alnum : char -> bool) :
  case_blind (sensitive_data_regex uni_alnum).
Proof.
  unfold sensitive_data_regex. cbn [case_blind cats star]. repeat split;
    try exact assignment_tail_case_blind; blind_tests.
Qed.

(** ** A text with more text after it *)

Lemma option_map_orelse (f : str -> str) (a b : option str) :
  option_map f (orelse a b) = orelse (option_map f a) (option_map f b).
Proof. destruct a; reflexivity. Qed.

Lemma times_pad (w : str) step (n : nat) :
  pad_step w step -> pad_step w (times n step).
Proof.
  intros Hs. induction n as [|n IH]; intros s k k' Hk; simpl.
  - apply Hk.
  - apply Hs. intros v. apply IH. exact Hk.
Qed.

Lemma upto_pad (w : str) step (g : bool) (n : nat) :
  pad_step w step -> pad_step w (upto g n step).
Proof.
  intros Hs. induction n as [|n IH]; intros s k k' Hk; simpl.
  - apply Hk.
  - assert (Hmore :
      step (s ++ w)
        (fun s' => if length s' <? length (s ++ w)
                   then upto g n step s' k' else None) =
      option_map (fun x => x ++ w)
        (step s (fun v => if length v <? length s
                          then upto g n step v k else None))).
    { apply Hs. intros v. rewrite !length_app.
      replace (length v + length w <? length s + length w)
        with (length v <? length s).
      - destruct (length v <? length s); [| reflexivity].
        apply IH. exact Hk.
      - destruct (Nat.ltb_spec (length v) (length s));
          symmetry; [apply Nat.ltb_lt | apply Nat.ltb_ge]; lia. }
    destruct g; rewrite option_map_orelse; f_equal;
      solve [exact Hmore | apply Hk].
Qed.

Lemma sre_match_pad (c : char) (w : str) (r : regex) :
  rejects c r -> pad_step (c :: w) (sre_match r).
Proof.
  induction r as [| p | r1 IH1 r2 IH2 | r1 IH1 r2 IH2 | g lo hi r IH | r IH];
    intros Hr s k k' Hk; simpl in Hr |- *.
  - apply Hk.
  - destruct s as [|a s]; simpl.
    + rewrite Hr. reflexivity.
    + destruct (p a); [apply Hk | reflexivity].
  - destruct Hr as [Hr1 Hr2]. apply IH1; [exact Hr1 |].
    intros v. apply IH2; assumption.
  - destruct Hr as [Hr1 Hr2].
    rewrite (IH1 Hr1 s k k' Hk), (IH2 Hr2 s k k' Hk), option_map_orelse.
    reflexivity.
  - apply times_pad; [apply IH; exact Hr |]. intros v.
    rewrite (upto_pad (c :: w) _ g _ (IH Hr) v k k' Hk). f_equal.
    destruct hi as [h|]; [reflexivity |]. unfold budget.
    apply upto_budget; [apply sre_match_local | | apply Nat.le_refl].
    rewrite length_app. lia.
  - apply IH; assumption.
Qed.

Lemma match_at_pad (c : char) (w : str) (r : regex) (s : str) :
  rejects c r ->
  match_at r (s ++ c :: w) =
  option_map (fun x => x ++ c :: w) (match_at r s).
Proof.
  intros Hr. unfold match_at. apply sre_match_pad; [exact Hr |].
  intros v. reflexivity.
Qed.

(** The search skips a prefix at whose characters the pattern cannot
    start. *)
Lemma search_skip (r : regex) (ws s : str) :
  (forall a u, In a ws -> match_at r (a :: u) = None) ->
  search r (ws ++ s) = search r s.
Proof.
  intros H. induction ws as [|a ws IH]; [reflexivity |].
  cbn [app]. rewrite search_eq, (H a (ws ++ s)) by (left; reflexivity).
  apply IH. intros b u Hb. apply H. right. exact Hb.
Qed.

Lemma search_pad (c : char) (w : str) (r : regex) (s : str) :
  rejects c r -> search r (c :: w) = None ->
  search r (s ++ c :: w) = search r s.
Proof.
  intros Hr Hw.
  assert (Hnil : match_at r [] = None).
  { rewrite search_eq in Hw. pose proof (match_at_pad c w r [] Hr) as H.
    cbn [app] in H. destruct (match_at r (c :: w)); [discriminate Hw |].
    destruct (match_at r []); [discriminate H | reflexivity]. }
  induction s as [|a s IH].
  - cbn [app]. rewrite Hw, search_eq, Hnil. reflexivity.
  - rewrite (search_eq r (a :: s)). cbn [app].
    rewrite search_eq.
    change (a :: s ++ c :: w) with ((a :: s) ++ c :: w).
    rewrite (match_at_pad c w r (a :: s) Hr).
    destruct (match_at r (a :: s)) as [rest|] eqn:Hm; cbn [option_map].
    + f_equal. destruct (match_at_sound _ _ _ Hm) as (t & Ht & _).
      rewrite Ht. rewrite <- app_assoc.
      rewrite (firstn_span t rest).
      apply (firstn_span t (rest ++ c :: w)).
    + cbn [app]. exact IH.
Qed.





(** ** The e-mail pattern at the start of a text *)

Lemma match_at_email_eq (s : str) :
  match_at email_regex s =
  sre_match (plus (Chr local_char)) s
    (fun s1 => sre_match (Chr (one (ch "@"))) s1
                 (fun s2 => sre_match (plus (Chr domain_char)) s2 dot_tld)).
Proof. reflexivity. Qed.




Lemma dot_tld_token (tld q : str) :
  Forall (fun c => letter c = true) tld -> 2 <= length tld <= 4 ->
  exists r, dot_tld (ch "." :: tld ++ q) = Some r /\ length r <= length q.
Proof.
  intros H Hlen. unfold dot_tld. cbn [sre_match times budget Nat.sub].
  change (one (ch ".") (ch ".")) with true. cbv iota.
  destruct H as [|a tld Ha H]; [simpl in Hlen; lia |].
  destruct H as [|b tld Hb H]; [simpl in Hlen; lia |].
  cbn [app]. rewrite Ha, Hb. apply upto_chr_letters; [exact H |].
  simpl in Hlen. lia.
Qed.

Lemma dot_tld_some (b r : str) :
  dot_tld b = Some r -> exists b1, b = ch "." :: b1 /\ length r <= length b1.
Proof.
  unfold dot_tld. intros H. apply (sre_match_sound (Chr _)) in H.
  destruct H as (s1 & s2 & -> & (c & -> & Hc) & H).
  apply one_true in Hc. subst c. exists s2. split; [reflexivity |].
  apply sre_match_sound in H. destruct H as (t & u & -> & _ & Hu).
  injection Hu as ->. rewrite length_app. lia.
Qed.


(** At the place where the e-mail pattern matches, no token that starts
    there is longer than the match. *)
Lemma email_longest (t q rest : str) :
  email_token t -> match_at email_regex (t ++ q) = Some rest ->
  length rest <= length q.
Proof.
  intros (l & d & tld & -> & Hl & Fl & Hd & Fd & Ft & Hlen) H.
  repeat rewrite <- app_assoc in H.
  rewrite match_at_email_eq, plus_chr in H.
  destruct Fl as [|c l Hc Fl]; [congruence |]. cbn [app] in H.
  rewrite Hc in H. rewrite greedy_run_through in H.
  2:{ apply Forall_forall. intros a Ha. rewrite Forall_forall in Fl.
      split; [apply Fl; exact Ha |]. intros u. cbn [sre_match].
      rewrite (one_false local_char); [reflexivity | reflexivity |].
      apply Fl. exact Ha. }
  cbn [greedy_run] in H. change (local_char (ch "@")) with false in H.
  cbv iota in H. cbn [sre_match] in H.
  change (one (ch "@") (ch "@")) with true in H. cbv iota in H.
  rewrite plus_chr in H.
  destruct Fd as [|e d He Fd]; [congruence |]. cbn [app] in H.
  rewrite He in H.
  apply greedy_run_longest in H.
  destruct H as (a & b & Hs & Fa & Hk & Hmax).
  destruct (dot_tld_token tld q Ft Hlen) as (r0 & Hr0 & Hr0len).
  assert (Hhere : b = ch "." :: tld ++ q -> length rest <= length q).
  { intros ->. rewrite Hr0 in Hk. injection Hk as <-. exact Hr0len. }
  apply app_eq_app in Hs. destruct Hs as (l' & [[Hd' Hb] | [Ha Hb]]).
  - destruct l' as [|x l']; [apply Hhere; exact Hb |].
    exfalso. rewrite (Hmax d (ch "." :: tld ++ q)) in Hr0.
    + discriminate Hr0.
    + reflexivity.
    + exact Fd.
    + rewrite Hd', length_app. simpl. lia.
  - destruct l' as [|x l']; [apply Hhere; symmetry; exact Hb |].
    simpl in Hb. injection Hb as _ Hb.
    destruct (dot_tld_some _ _ Hk) as (b1 & -> & Hrest).
    apply app_eq_app in Hb. destruct Hb as (m & [[Ht Hb] | [_ Hq]]).
    + destruct m as [|y m].
      * simpl in Hb. rewrite <- Hb. simpl. lia.
      * exfalso. simpl in Hb. injection Hb as <- _.
        revert Ft. rewrite Ht. intros Ft. apply Forall_app in Ft.
        destruct Ft as [_ Ft]. inversion Ft as [|? ? Hy _].
        discriminate Hy.
    + rewrite Hq, length_app. simpl. lia.
Qed.












(** ** The assignment patterns at the start of a text *)

Lemma keyword_match (w : string) (kw s : str) (k : cont) :
  map ascii_lower kw = txt w -> sre_match (keyword w) (kw ++ s) k = k s.
Proof.
  unfold keyword. generalize (txt w) as l. intros l. revert kw.
  induction l as [|c l IH]; intros kw H.
  - destruct kw; [reflexivity | discriminate].
  - destruct kw as [|x kw]; [discriminate |]. simpl in H.
    injection H as Hx Hkw. cbn [map cats sre_match app].
    rewrite (ilit_lower _ _ Hx). apply IH. exact Hkw.
Qed.

Lemma assignment_tail_match (ws1 ws2 value post x : str) (sep q1 q2 : char)
  (k : cont) :
  blanks ws1 ->
  separator sep = true ->
  blanks ws2 ->
  quote q1 = true -> plain_value value -> quote q2 = true ->
  k post = Some x ->
  sre_match assignment_tail
    (ws1 ++ [sep] ++ ws2 ++ [q1] ++ value ++ [q2] ++ post) k = Some x.
Proof.
  intros Hws1 Hsep Hws2 Hq1 Hval Hq2 Hk.
  unfold assignment_tail. cbn [cats sre_match app]. rewrite star_chr.
  apply greedy_run_stop;
    [exact Hws1 | apply separator_not_space; exact Hsep |].
  cbn [sre_match]. rewrite Hsep, star_chr.
  apply greedy_run_stop; [exact Hws2 | apply quote_not_space; exact Hq1 |].
  cbn [sre_match]. rewrite Hq1.
  change (Rep false 0 None (Chr dot)) with (lazy_star (Chr dot)).
  rewrite lazy_star_chr. apply lazy_run_skip.
  - unfold plain_value in Hval. apply Forall_forall. intros a Ha.
    rewrite Forall_forall in Hval. destruct (Hval a Ha) as [Hqa Hnl].
    split.
    + unfold dot. apply negb_true_iff. apply N.eqb_neq. exact Hnl.
    + intros u. cbn [sre_match]. rewrite Hqa. reflexivity.
  - cbn [sre_match]. rewrite Hq2. exact Hk.
Qed.

Lemma api_keyword_split (kw : str) :
  api_keyword kw ->
  exists a mid b,
    kw = a ++ mid ++ b /\
    map ascii_lower a = txt "api" /\ map ascii_lower b = txt "key" /\
    (mid = [] \/ mid = [ch "_"] \/ mid = [ch "-"]).
Proof.
  intros [H | [H | H]].
  - change (txt "api_key") with [97; 112; 105; 95; 107; 101; 121]%N in H.
    destruct kw as [|c1 [|c2 [|c3 [|c4 [|c5 [|c6 [|c7 [|c8 kw]]]]]]]];
      try discriminate H.
    injection H as H1 H2 H3 H4 H5 H6 H7.
    exists [c1; c2; c3], [c4], [c5; c6; c7].
    split; [reflexivity |].
    split; [simpl; rewrite H1, H2, H3; reflexivity |].
    split; [simpl; rewrite H5, H6, H7; reflexivity |].
    right. left. destruct (ascii_lower_cases _ _ H4) as [-> | [E B]];
      [reflexivity | lia].
  - change (txt "api-key") with [97; 112; 105; 45; 107; 101; 121]%N in H.
    destruct kw as [|c1 [|c2 [|c3 [|c4 [|c5 [|c6 [|c7 [|c8 kw]]]]]]]];
      try discriminate H.
    injection H as H1 H2 H3 H4 H5 H6 H7.
    exists [c1; c2; c3], [c4], [c5; c6; c7].
    split; [reflexivity |].
    split; [simpl; rewrite H1, H2, H3; reflexivity |].
    split; [simpl; rewrite H5, H6, H7; reflexivity |].
    right. right. destruct (ascii_lower_cases _ _ H4) as [-> | [E B]];
      [reflexivity | lia].
  - change (txt "apikey") with [97; 112; 105; 107; 101; 121]%N in H.
    destruct kw as [|c1 [|c2 [|c3 [|c4 [|c5 [|c6 [|c7 kw]]]]]]];
      try discriminate H.
    injection H as H1 H2 H3 H4 H5 H6.
    exists [c1; c2; c3], [], [c4; c5; c6].
    split; [reflexivity |].
    split; [simpl; rewrite H1, H2, H3; reflexivity |].
    split; [simpl; rewrite H4, H5, H6; reflexivity |].
    left. reflexivity.
Qed.

Lemma api_key_match_at (kw ws1 ws2 value post : str) (sep q1 q2 : char) :
  api_keyword kw ->
  blanks ws1 ->
  separator sep = true ->
  blanks ws2 ->
  quote q1 = true -> plain_value value -> quote q2 = true ->
  match_at api_key_regex
    ((kw ++ ws1 ++ [sep] ++ ws2 ++ [q1] ++ value ++ [q2]) ++ post)
  = Some post.
Proof.
  intros Hkw Hws1 Hsep Hws2 Hq1 Hval Hq2.
  destruct (api_keyword_split _ Hkw) as (a & mid & b & -> & Ha & Hb & Hmid).
  repeat rewrite <- app_assoc.
  set (W := ws1 ++ [sep] ++ ws2 ++ [q1] ++ value ++ [q2] ++ post).
  unfold match_at, api_key_regex. cbn [cats sre_match].
  rewrite (keyword_match _ _ _ _ Ha). rewrite opt_chr.
  assert (HK : sre_match (keyword "key") (b ++ W)
                 (fun s' => sre_match assignment_tail s' (fun s'' => Some s''))
               = Some post).
  { rewrite (keyword_match _ _ _ _ Hb). unfold W.
    apply assignment_tail_match; try assumption. reflexivity. }
  destruct Hmid as [-> | [-> | ->]].
  - cbn [app]. change (txt "key") with [107; 101; 121]%N in Hb.
    destruct b as [|x b]; [discriminate Hb |]. simpl in Hb.
    injection Hb as Hx Hb'. cbn [app] in HK |- *.
    replace (any_of [one (ch "_"); one (ch "-")] x) with false; [exact HK |].
    destruct (ascii_lower_cases _ _ Hx) as [-> | [E B]]; [reflexivity |].
    assert (x = 75%N) by lia. subst x. reflexivity.
  - cbn [app]. change (any_of [one (ch "_"); one (ch "-")] (ch "_")) with true.
    cbv iota. rewrite HK. reflexivity.
  - cbn [app]. change (any_of [one (ch "_"); one (ch "-")] (ch "-")) with true.
    cbv iota. rewrite HK. reflexivity.
Qed.

(** ** The e-mail matcher *)

Ltac hyps_tld :=
  repeat match goal with
    | |- host _ => unfold host
    | |- Forall _ _ => apply Forall_nil
    | |- Forall _ _ => apply Forall_cons
    | |- _ /\ _ => split
    | |- _ <> _ => let H := fresh in intros H; vm_compute in H; discriminate H
    | |- _ = true => reflexivity
    end.

(** C8: a line without the character [@] gives no e-mail finding. *)
Theorem match_email_without_at (line : str) :
  ~ In (ch "@") line -> match_email line = None.
Proof.
  intros Hno. destruct (match_email line) as [m|] eqn:Hm; [| reflexivity].
  exfalso. apply search_sound in Hm. destruct Hm as [(pre & post & ->) Hl].
  apply Hno. apply in_or_app. right. apply in_or_app. left.
  apply lang_email_has_at. exact Hl.
Qed.

Lemma match_email_without_at_witness :
  match_email (txt "no secrets here") = None.
Proof.
  apply (match_email_without_at (txt "no secrets here")).
  vm_compute. intros H.
  repeat (destruct H as [H | H]; [discriminate H |]). exact H.
Defined.


(** With one letter after the dot of a domain without dots there is no
    match. *)
Lemma match_email_one_letter_tld : match_email (txt "user@host.c") = None.
Proof. vm_compute. reflexivity. Qed.



(** C3: a line that holds an e-mail token is reported, and what is
    reported is the first token of the line: it is a token, no token of the
    line starts to the left of it, and no token that starts where it starts
    is longer. *)
Theorem match_email_first_token (line t : str) :
  email_token t -> occurs t line ->
  exists pre m post,
    match_email line = Some m /\ line = pre ++ m ++ post /\
    email_token m /\
    forall pre' t' post',
      line = pre' ++ t' ++ post' -> email_token t' ->
      length pre <= length pre' /\
      (length pre' = length pre -> length t' <= length m).
Proof.
  intros Ht Hocc. unfold match_email.
  destruct (search email_regex line) as [m|] eqn:Hm.
  - destruct (search_some _ _ _ Hm) as (pre & post & Hline & Hat & Hfirst).
    exists pre, m, post. split; [reflexivity |]. split; [exact Hline |].
    split.
    { apply email_token_lang. apply search_sound in Hm. apply Hm. }
    intros pre' t' post' Hline' Ht'.
    assert (Hle : length pre <= length pre').
    { destruct (Nat.lt_ge_cases (length pre') (length pre)) as [Hlt | Hge];
        [exfalso | exact Hge].
      apply (match_at_complete email_regex t' post');
        [apply email_token_lang; exact Ht' |].
      apply (Hfirst pre' (t' ++ post') Hline' Hlt). }
    split; [exact Hle |]. intros Heq.
    rewrite Hline in Hline'.
    destruct (app_same_length _ _ _ _ (eq_sym Heq) Hline') as [_ Hrest].
    rewrite Hrest in Hat. apply (email_longest _ _ _ Ht') in Hat.
    apply (f_equal (@length char)) in Hrest. rewrite !length_app in Hrest.
    lia.
  - exfalso. apply email_token_lang in Ht.
    exact (search_complete _ _ _ Hocc Ht Hm).
Qed.

Lemma match_email_first_token_witness :
  exists pre m post,
    match_email (txt "mail a.b@c.de now") = Some m /\
    txt "mail a.b@c.de now" = pre ++ m ++ post /\
    email_token m /\
    forall pre' t' post',
      txt "mail a.b@c.de now" = pre' ++ t' ++ post' -> email_token t' ->
      length pre <= length pre' /\
      (length pre' = length pre -> length t' <= length m).
Proof.
  apply (match_email_first_token (txt "mail a.b@c.de now") (txt "a.b@c.de")).
  - exists (txt "a.b"), (txt "c"), (txt "de").
    split; [reflexivity |]. hyps_tld; simpl; lia.
  - exists (txt "mail "), (txt " now"). reflexivity.
Defined.

(** ** The password matcher *)

Lemma lang_assignment_tail_inv (s : str) :
  lang assignment_tail s ->
  exists ws t, s = ws ++ t /\ blanks ws /\ quoted_assignment t.
Proof.
  unfold assignment_tail. cbn [cats].
  intros (ws1 & r1 & -> & Hws1 & x1 & r2 & -> & (sep & -> & Hsep)
          & ws2 & r3 & -> & Hws2 & x2 & r4 & -> & (q1 & -> & Hq1)
          & value & r5 & -> & Hval & x3 & e & -> & (q2 & -> & Hq2) & ->).
  apply lang_rep_chr_inv in Hws1. destruct Hws1 as [Hws1 _].
  apply lang_rep_chr_inv in Hws2. destruct Hws2 as [Hws2 _].
  change (lang (lazy_star (Chr dot)) value) in Hval.
  apply lang_rep_chr_inv in Hval. destruct Hval as [Hval _].
  exists ws1, ([sep] ++ ws2 ++ [q1] ++ value ++ [q2]).
  rewrite app_nil_r. split; [reflexivity |]. split; [exact Hws1 |].
  exists sep, ws2, q1, value, q2. repeat split; auto.
  intros Hin. rewrite Forall_forall in Hval. apply Hval in Hin.
  discriminate Hin.
Qed.

Lemma password_word_length (w : str) : password_word w -> length w = 8.
Proof.
  unfold password_word, keyword. cbn [txt list_ascii_of_string map cats].
  intros (s1 & r1 & -> & (c1 & -> & _) & s2 & r2 & -> & (c2 & -> & _)
          & s3 & r3 & -> & (c3 & -> & _) & s4 & r4 & -> & (c4 & -> & _)
          & s5 & r5 & -> & (c5 & -> & _) & s6 & r6 & -> & (c6 & -> & _)
          & s7 & r7 & -> & (c7 & -> & _) & s8 & r8 & -> & (c8 & -> & _)
          & ->).
  reflexivity.
Qed.

(** Each text the keyword group of the password pattern matches holds a
    password word. *)
Lemma lang_password_group (uni_alnum : char -> bool) (u : str) :
  lang (Group (Alt (cats [star (Chr (word_or_quote uni_alnum));
                          keyword "password";
                          Chr (word_or_quote uni_alnum)])
                  (keyword "password"))) u ->
  exists w, password_word w /\ occurs w u.
Proof.
  intros [H | H].
  - cbn [cats] in H.
    destruct H as (a & r1 & -> & _ & w & r2 & -> & Hw & b & e & -> & _ & _).
    exists w. split; [exact Hw |]. exists a, (b ++ e). reflexivity.
  - exists u. split; [exact H |]. exists [], []. rewrite app_nil_r.
    reflexivity.
Qed.

(** The texts of the password pattern: keyword groups, then the tail; and
    no keyword group on a line without password word. *)
Lemma lang_sensitive_inv (uni_alnum : char -> bool) (m : str) :
  lang (sensitive_data_regex uni_alnum) m ->
  exists groups tail,
    m = groups ++ tail /\ lang assignment_tail tail /\
    (groups <> [] -> exists w, password_word w /\ occurs w groups).
Proof.
  unfold sensitive_data_regex. cbn [cats].
  intros (s1 & r1 & -> & Hs1 & tail & e & -> & Ht & ->).
  exists s1, tail. rewrite app_nil_r. split; [reflexivity |].
  split; [exact Ht |]. intros Hne.
  destruct Hs1 as (a & b & j & -> & Ha & _ & Hb). cbn [iter] in Ha.
  subst a. cbn [app] in Hne |- *.
  destruct j as [|j]; cbn [iter] in Hb; [subst b; congruence |].
  destruct Hb as (u & v & -> & Hu & _).
  destruct (lang_password_group _ _ Hu) as (w & Hw & (x & y & ->)).
  exists w. split; [exact Hw |]. exists x, (y ++ v). cbn [app].
  repeat rewrite <- app_assoc. reflexivity.
Qed.

(** C1: a line that holds a quoted assignment is reported by the password
    matcher, whatever stands before the separator, and so also when no
    password word is anywhere on the line: the keyword group of the pattern
    may repeat zero times.  The text reported is not empty and occurs on
    the line; it is a text of the pattern, which ends with a quoted
    assignment, and no text of the pattern starts to the left of it.  On a
    line without password word it is white space and a quoted assignment,
    without any key. *)
Theorem match_sensitive_bare_assignment (uni_alnum : char -> bool)
  (line t : str) :
  quoted_assignment t -> occurs t line ->
  exists pre m post,
    match_sensitive uni_alnum line = Some m /\ m <> [] /\
    line = pre ++ m ++ post /\
    lang (sensitive_data_regex uni_alnum) m /\
    (exists key t', m = key ++ t' /\ quoted_assignment t') /\
    (forall pre' t' post',
        line = pre' ++ t' ++ post' ->
        lang (sensitive_data_regex uni_alnum) t' ->
        length pre <= length pre') /\
    ((forall w, password_word w -> ~ occurs w line) ->
     exists ws t', m = ws ++ t' /\ blanks ws /\ quoted_assignment t').
Proof.
  intros (sep & ws & q1 & value & q2 & -> & Hsep & Hws & Hq1 & Hq2 & Hval) Hocc.
  assert (Hl : lang (sensitive_data_regex uni_alnum)
                 ([sep] ++ ws ++ [q1] ++ value ++ [q2])).
  { unfold sensitive_data_regex. cbn [cats].
    apply (lang_cat _ _ []).
    - exists [], [], 0. simpl. auto.
    - apply lang_last. apply lang_assignment_tail; assumption. }
  destruct (match_sensitive uni_alnum line) as [m|] eqn:Hm.
  2:{ exfalso. revert Hm. apply (search_complete _ _ _ Hocc Hl). }
  unfold match_sensitive in Hm.
  destruct (search_some _ _ _ Hm) as (pre & post & Hline & _ & Hfirst).
  destruct (search_sound _ _ _ Hm) as [_ Hlang].
  destruct (lang_sensitive_inv _ _ Hlang) as (groups & tail & Hmeq & Ht & Hg).
  destruct (lang_assignment_tail_inv _ Ht) as (ws' & t' & Htail & Hws' & Ht').
  exists pre, m, post. split; [reflexivity |].
  split; [| split; [exact Hline |]].
  { intros ->. symmetry in Hmeq. apply app_eq_nil in Hmeq.
    destruct Hmeq as [_ Hnil].
    exact (lang_assignment_tail_nonempty _ Ht Hnil). }
  split; [exact Hlang |]. split; [| split].
  - exists (groups ++ ws'), t'. rewrite Hmeq, Htail, app_assoc. auto.
  - intros pre' u post' Hline' Hu.
    destruct (Nat.lt_ge_cases (length pre') (length pre)) as [Hlt | Hge];
      [exfalso | exact Hge].
    apply (match_at_complete _ u post' Hu).
    apply (Hfirst pre' (u ++ post') Hline' Hlt).
  - intros Hfree. exists ws', t'. split; [| auto].
    destruct groups as [|c groups]; [rewrite Hmeq, Htail; reflexivity |].
    exfalso. destruct Hg as (w & Hw & (x & y & Hgr)); [discriminate |].
    apply (Hfree w Hw). exists (pre ++ x), (y ++ tail ++ post).
    rewrite Hline, Hmeq, Hgr. repeat rewrite <- app_assoc. reflexivity.
Qed.

Lemma match_sensitive_bare_assignment_witness :
  exists pre m post,
    match_sensitive (fun _ => false)
      (txt "x = " ++ [dquote] ++ txt "y" ++ [dquote]) = Some m /\
    m <> [] /\
    txt "x = " ++ [dquote] ++ txt "y" ++ [dquote] = pre ++ m ++ post /\
    lang (sensitive_data_regex (fun _ => false)) m /\
    (exists key t', m = key ++ t' /\ quoted_assignment t') /\
    (forall pre' t' post',
        txt "x = " ++ [dquote] ++ txt "y" ++ [dquote] = pre' ++ t' ++ post' ->
        lang (sensitive_data_regex (fun _ => false)) t' ->
        length pre <= length pre') /\
    exists ws t', m = ws ++ t' /\ blanks ws /\ quoted_assignment t'.
Proof.
  destruct (match_sensitive_bare_assignment (fun _ => false)
              (txt "x = " ++ [dquote] ++ txt "y" ++ [dquote])
              (txt "= " ++ [dquote] ++ txt "y" ++ [dquote]))
    as (pre & m & post & H1 & H2 & H3 & H4 & H5 & H6 & H7).
  - exists (ch "="), (txt " "), dquote, (txt "y"), dquote.
    repeat split; try reflexivity.
    + repeat constructor.
    + vm_compute. intros [H | H]; [discriminate H | exact H].
  - exists (txt "x "), []. reflexivity.
  - exists pre, m, post. repeat (split; [assumption |]). apply H7.
    intros w Hw (a & b & Hocc). apply password_word_length in Hw.
    apply (f_equal (@length char)) in Hocc. rewrite !length_app, Hw in Hocc.
    simpl in Hocc. lia.
Defined.

(** The line of the specification's example, [x = "y"]: what is reported
    starts at the blank before the separator. *)
Lemma match_sensitive_bare_example (uni_alnum : char -> bool) :
  match_sensitive uni_alnum (txt "x = " ++ [dquote] ++ txt "y" ++ [dquote])
  = Some (txt " = " ++ [dquote] ++ txt "y" ++ [dquote]).
Proof. vm_compute. reflexivity. Qed.

(** C5: the line [password = "Sup3rSecret!"] is reported whole: keyword,
    separator and quoted value. *)
Theorem match_sensitive_password_line (uni_alnum : char -> bool) :
  match_sensitive uni_alnum
    (txt "password = " ++ [dquote] ++ txt "Sup3rSecret!" ++ [dquote])
  = Some (txt "password = " ++ [dquote] ++ txt "Sup3rSecret!" ++ [dquote]).
Proof. vm_compute. reflexivity. Qed.

(** C4 (the code departs from it): on [db_password = "x"] the matcher does
    report a finding, but the text reported starts at [password]; the
    prefix [db_] is not part of it. *)
Theorem match_sensitive_db_password (uni_alnum : char -> bool) :
  match_sensitive uni_alnum
    (txt "db_password = " ++ [dquote] ++ txt "x" ++ [dquote])
  = Some (txt "password = " ++ [dquote] ++ txt "x" ++ [dquote]).
Proof. vm_compute. reflexivity. Qed.

(** ** The API-key matcher *)

Ltac plain_chars :=
  repeat (apply Forall_cons; [split; [reflexivity | discriminate] |]);
  apply Forall_nil.

(** C6: the API-key matcher recognises [api_key], [api-key] or [apikey] in
    any case, followed by blanks, [:] or [=], blanks and a value between
    single or double quotes, which may be empty.  On a line that starts with
    such an assignment it reports the whole of it, from the keyword to the
    closing quote; wherever the assignment stands on a line, the line is
    reported.  The line [API_KEY: "abc123XYZ"] is the instance proved
    below. *)
Theorem match_api_key_span (kw ws1 ws2 value : str) (sep q1 q2 : char) :
  api_keyword kw ->
  blanks ws1 -> separator sep = true -> blanks ws2 ->
  quote q1 = true -> plain_value value -> quote q2 = true ->
  (forall post,
      match_api_key (assignment kw ws1 sep ws2 q1 value q2 ++ post)
      = Some (assignment kw ws1 sep ws2 q1 value q2)) /\
  (forall pre post,
      match_api_key (pre ++ assignment kw ws1 sep ws2 q1 value q2 ++ post)
      <> None).
Proof.
  intros Hkw Hws1 Hsep Hws2 Hq1 Hval Hq2.
  assert (Hat : forall post,
             match_at api_key_regex
               (assignment kw ws1 sep ws2 q1 value q2 ++ post) = Some post).
  { intros post. apply api_key_match_at; assumption. }
  split.
  - intros post. unfold match_api_key. rewrite search_eq, Hat, firstn_span.
    reflexivity.
  - intros pre post. unfold match_api_key.
    apply (search_complete _ _ (assignment kw ws1 sep ws2 q1 value q2)).
    + exists pre, post. reflexivity.
    + destruct (match_at_sound _ _ _ (Hat [])) as (t & Ht & Hl).
      apply app_inv_tail in Ht. rewrite Ht. exact Hl.
Qed.

Lemma match_api_key_span_witness :
  match_api_key (txt "API_KEY: " ++ [dquote] ++ txt "abc123XYZ" ++ [dquote])
  = Some (txt "API_KEY: " ++ [dquote] ++ txt "abc123XYZ" ++ [dquote]).
Proof.
  refine (proj1 (match_api_key_span (txt "API_KEY") [] (txt " ")
                   (txt "abc123XYZ") (ch ":") dquote dquote
                   _ _ _ _ _ _ _) []).
  - left. reflexivity.
  - apply Forall_nil.
  - reflexivity.
  - apply Forall_cons; [reflexivity | apply Forall_nil].
  - reflexivity.
  - plain_chars.
  - reflexivity.
Defined.

(** ** The two assignment matchers *)

(** C7: the two assignment matchers do not see the case of the keyword.
    When the keyword on a line is replaced by the same keyword in another
    mix of upper and lower case, the rest of the line unchanged, each of the
    two matchers reports a finding on both lines or on neither, and the two
    texts reported differ by the case of letters only. *)
Theorem keyword_case_insensitive (uni_alnum : char -> bool)
  (pre kw1 kw2 post : str) :
  same_nocase kw1 kw2 ->
  (same_outcome (match_sensitive uni_alnum (pre ++ kw1 ++ post))
     (match_sensitive uni_alnum (pre ++ kw2 ++ post)) /\
   (match_sensitive uni_alnum (pre ++ kw1 ++ post) = None <->
    match_sensitive uni_alnum (pre ++ kw2 ++ post) = None)) /\
  (same_outcome (match_api_key (pre ++ kw1 ++ post))
     (match_api_key (pre ++ kw2 ++ post)) /\
   (match_api_key (pre ++ kw1 ++ post) = None <->
    match_api_key (pre ++ kw2 ++ post) = None)).
Proof.
  intros Hkw.
  assert (Hline : same_nocase (pre ++ kw1 ++ post) (pre ++ kw2 ++ post)).
  { apply same_nocase_app; [reflexivity |].
    apply same_nocase_app; [exact Hkw | reflexivity]. }
  assert (H1 := search_case_blind _ _ _
                  (sensitive_data_regex_case_blind uni_alnum) Hline).
  assert (H2 := search_case_blind _ _ _ api_key_regex_case_blind Hline).
  split; (split; [assumption | apply same_outcome_none; assumption]).
Qed.

Lemma keyword_case_insensitive_witness :
  let rest := txt ": " ++ [dquote] ++ txt "abc123XYZ" ++ [dquote] in
  (match_sensitive (fun _ => false) (txt "API_KEY" ++ rest) = None <->
   match_sensitive (fun _ => false) (txt "Api_Key" ++ rest) = None) /\
  (match_api_key (txt "API_KEY" ++ rest) = None <->
   match_api_key (txt "Api_Key" ++ rest) = None).
Proof.
  intros rest.
  destruct (keyword_case_insensitive (fun _ => false) []
              (txt "API_KEY") (txt "Api_Key") rest) as [[_ H1] [_ H2]].
  - reflexivity.
  - split; [exact H1 | exact H2].
Defined.

(** C10: the two quotes of a value need not be the same character.  The
    lines below open the value [abc] with a single quote and close it with
    a double quote: the API-key matcher reports the first, and the password
    matcher reports both, the second one whole. *)
Theorem mixed_quotes_match :
  let api_line := txt "api_key = 'abc" ++ [dquote] in
  let password_line := txt "password = 'abc" ++ [dquote] in
  match_api_key api_line = Some api_line /\
  forall uni_alnum,
    match_sensitive uni_alnum api_line = Some (txt " = 'abc" ++ [dquote]) /\
    match_sensitive uni_alnum password_line = Some password_line.
Proof.
  split; [| intros uni_alnum; split]; vm_compute; reflexivity.
Qed.

(** ** The three matchers *)

(** C9: each of the three matchers is a function of the line alone, defined
    on every line.  Its result is a match, which is then a text of the
    pattern's language that occurs on the line, or it is empty, and then no
    text of the language occurs on the line; there is no third outcome. *)
Theorem matchers_total (uni_alnum : char -> bool) (line : str) :
  search_result_ok email_regex line (match_email line) /\
  search_result_ok (sensitive_data_regex uni_alnum) line
    (match_sensitive uni_alnum line) /\
  search_result_ok api_key_regex line (match_api_key line).
Proof. repeat split; apply search_ok. Qed.

(** ** Stripping a line *)

Lemma lstrip_spec (s : str) :
  exists ws,
    s = ws ++ lstrip s /\ blanks ws /\
    forall c t, lstrip s = c :: t -> space c = false.
Proof.
  induction s as [|a s (ws & Hs & Hws & Hhead)]; simpl.
  - exists []. repeat split; [apply Forall_nil | discriminate].
  - destruct (space a) eqn:Ha.
    + exists (a :: ws). simpl. rewrite <- Hs.
      repeat split; [apply Forall_cons; assumption | exact Hhead].
    + exists []. repeat split; [apply Forall_nil |].
      intros c t H. injection H as <- _. exact Ha.
Qed.

Lemma lstrip_blanks (ws s : str) : blanks ws -> lstrip (ws ++ s) = lstrip s.
Proof.
  intros H. induction H as [|a ws Ha _ IH]; simpl; [reflexivity |].
  rewrite Ha. exact IH.
Qed.

Lemma lstrip_head (c : char) (s : str) :
  space c = false -> lstrip (c :: s) = c :: s.
Proof. intros H. simpl. rewrite H. reflexivity. Qed.

Lemma rstrip_spec (s : str) :
  exists ws,
    s = rstrip s ++ ws /\ blanks ws /\
    forall t c, rstrip s = t ++ [c] -> space c = false.
Proof.
  unfold rstrip. destruct (lstrip_spec (rev s)) as (ws & Hs & Hws & Hhead).
  exists (rev ws). split; [| split].
  - rewrite <- rev_app_distr, <- Hs, rev_involutive. reflexivity.
  - apply Forall_rev. exact Hws.
  - intros t c H. apply (f_equal (@rev char)) in H.
    rewrite rev_involutive, rev_app_distr in H. simpl in H.
    apply (Hhead _ _ H).
Qed.

Lemma rstrip_blanks (s ws : str) : blanks ws -> rstrip (s ++ ws) = rstrip s.
Proof.
  intros H. unfold rstrip. rewrite rev_app_distr, lstrip_blanks;
    [reflexivity | apply Forall_rev; exact H].
Qed.

Lemma rstrip_last (s : str) (c : char) :
  space c = false -> rstrip (s ++ [c]) = s ++ [c].
Proof.
  intros H. unfold rstrip. rewrite rev_app_distr. cbn [rev app lstrip].
  rewrite H. cbn [rev]. rewrite rev_involutive. reflexivity.
Qed.

Lemma strip_decompose (s : str) :
  exists ws1 ws2, s = ws1 ++ strip s ++ ws2 /\ blanks ws1 /\ blanks ws2.
Proof.
  unfold strip.
  destruct (lstrip_spec s) as (ws1 & Hs & Hws1 & _).
  destruct (rstrip_spec (lstrip s)) as (ws2 & Hl & Hws2 & _).
  exists ws1, ws2. rewrite <- Hl. auto.
Qed.

(** [strip] takes white space away at the two ends of a line, nothing
    else, and leaves none there. *)
Theorem strip_spec (s : str) :
  exists ws1 ws2,
    s = ws1 ++ strip s ++ ws2 /\ blanks ws1 /\ blanks ws2 /\
    (forall c t, strip s = c :: t -> space c = false) /\
    (forall t c, strip s = t ++ [c] -> space c = false).
Proof.
  unfold strip.
  destruct (lstrip_spec s) as (ws1 & Hs & Hws1 & Hhead).
  destruct (rstrip_spec (lstrip s)) as (ws2 & Hl & Hws2 & Hlast).
  exists ws1, ws2. split; [| split; [| split; [| split]]]; auto.
  - rewrite <- Hl. exact Hs.
  - intros c t H. rewrite H in Hl. simpl in Hl. apply (Hhead _ _ Hl).
Qed.

(** A line that is white space only, the empty line too, strips to the
    empty line. *)
Lemma strip_blanks (s : str) : blanks s -> strip s = [].
Proof.
  intros H. unfold strip.
  rewrite <- (app_nil_r s), lstrip_blanks by exact H. reflexivity.
Qed.

(** What [strip] gives back when white space is put around a text that has
    none at its ends. *)
Lemma strip_around (ws1 core ws2 : str) :
  blanks ws1 -> blanks ws2 ->
  (forall c t, core = c :: t -> space c = false) ->
  (forall t c, core = t ++ [c] -> space c = false) ->
  strip (ws1 ++ core ++ ws2) = core.
Proof.
  intros H1 H2 Hhead Hlast. unfold strip. rewrite lstrip_blanks by exact H1.
  destruct core as [|c core].
  - simpl. fold (strip ws2). apply strip_blanks. exact H2.
  - cbn [app]. rewrite lstrip_head by (apply (Hhead c core); reflexivity).
    change (c :: core ++ ws2) with ((c :: core) ++ ws2).
    rewrite rstrip_blanks by exact H2.
    destruct (exists_last (l := c :: core)) as (t & z & Ht); [discriminate |].
    rewrite Ht. apply rstrip_last. apply (Hlast t z). exact Ht.
Qed.

(** ** White space around an e-mail address *)

Ltac break_test H :=
  repeat match type of H with
    | (_ || _) = true =>
        apply orb_true_iff in H; destruct H as [H | H]
    | (_ && _) = true =>
        let H' := fresh H in
        apply andb_true_iff in H; destruct H as [H H'];
        apply N.leb_le in H, H'
    | (_ =? _)%N = true => apply N.eqb_eq in H
    | false = true => discriminate H
    end.

Lemma space_bounds (c : char) : space c = true -> (c <= 32 \/ 133 <= c)%N.
Proof.
  unfold space, any_of, range, one. intros H. break_test H; lia.
Qed.

Lemma local_char_bounds (c : char) :
  local_char c = true -> (37 <= c <= 122)%N.
Proof.
  unfold local_char, any_of, range, one. intros H.
  break_test H; subst; cbv [ch N_of_ascii N_of_digits] in *; lia.
Qed.

Lemma space_not_local (c : char) : space c = true -> local_char c = false.
Proof.
  intros H. destruct (local_char c) eqn:Hl; [| reflexivity].
  apply space_bounds in H. apply local_char_bounds in Hl. lia.
Qed.

Lemma email_rejects_space (c : char) :
  space c = true -> rejects c email_regex.
Proof.
  intros H. pose proof (space_not_local c H) as Hl.
  assert (Hb := space_bounds c H).
  unfold email_regex. cbn [cats rejects plus]. repeat split.
  - exact Hl.
  - unfold one. apply N.eqb_neq. cbv [ch N_of_ascii N_of_digits]. lia.
  - destruct (domain_char c) eqn:Hd; [| reflexivity].
    unfold domain_char, any_of, range, one in Hd.
    break_test Hd; subst; cbv [ch N_of_ascii N_of_digits] in *; lia.
  - unfold one. apply N.eqb_neq. cbv [ch N_of_ascii N_of_digits]. lia.
  - destruct (letter c) eqn:Hd; [| reflexivity].
    unfold letter, any_of, range, one in Hd.
    break_test Hd; subst; cbv [ch N_of_ascii N_of_digits] in *; lia.
Qed.

Lemma match_at_email_start (c : char) (u : str) :
  local_char c = false -> match_at email_regex (c :: u) = None.
Proof. intros H. rewrite match_at_email_eq, plus_chr, H. reflexivity. Qed.

Lemma search_email_blanks (ws : str) :
  blanks ws -> search email_regex ws = None.
Proof.
  intros H. rewrite <- (app_nil_r ws), search_skip; [reflexivity |].
  intros a u Ha. apply match_at_email_start. apply space_not_local.
  unfold blanks in H. rewrite Forall_forall in H. apply H. exact Ha.
Qed.

(** Stripping a line does not change what the e-mail matcher finds on
    it. *)
Theorem match_email_strip (s : str) : match_email (strip s) = match_email s.
Proof.
  destruct (strip_decompose s) as (ws1 & ws2 & Hs & H1 & H2).
  rewrite Hs at 2. unfold match_email. rewrite search_skip.
  - destruct ws2 as [|c w]; [rewrite app_nil_r; reflexivity |].
    symmetry. apply search_pad.
    + apply email_rejects_space. inversion H2. assumption.
    + apply search_email_blanks. exact H2.
  - intros a u Ha. apply match_at_email_start. apply space_not_local.
    unfold blanks in H1. rewrite Forall_forall in H1. apply H1. exact Ha.
Qed.

(** ** Statements in a row *)

Lemma and_then_assoc (o : outcome) (f g : scan_state -> outcome) :
  o >>= f >>= g = o >>= (fun st => f st >>= g).
Proof. destruct o; reflexivity. Qed.

Lemma and_then_ext (o : outcome) (f g : scan_state -> outcome) :
  (forall st, f st = g st) -> o >>= f = o >>= g.
Proof. intros H. destruct o; simpl; [apply H | reflexivity]. Qed.

Lemma and_then_returns (o : outcome) (f : scan_state -> outcome)
  (st' : scan_state) :
  o >>= f = Returns st' -> exists st1, o = Returns st1 /\ f st1 = Returns st'.
Proof.
  destruct o as [st1 | reason st1]; simpl; intros H;
    [exists st1; auto | discriminate H].
Qed.

Lemma advance_none (st : scan_state) : advance st 0 [] = st.
Proof. destruct st. unfold advance. simpl. rewrite app_nil_r. reflexivity. Qed.

Lemma advance_advance (st : scan_state) (j1 j2 : nat) (t1 t2 : list str) :
  advance (advance st j1 t1) j2 t2 = advance st (j1 + j2) (t1 ++ t2).
Proof.
  unfold advance. cbn [hits printed]. f_equal; [lia |].
  symmetry. apply app_assoc.
Qed.

Lemma rules_app (a b : list str) : rules (a ++ b) = rules a + rules b.
Proof. apply count_occ_app. Qed.

Lemma rules_other (text : str) : hd 0%N text <> ch "-" -> rules [text] = 0.
Proof.
  intros H. unfold rules. apply count_occ_cons_neq. intros E. apply H.
  rewrite E. reflexivity.
Qed.

Lemma rules_rule : rules [rule] = 1.
Proof. unfold rules. rewrite count_occ_cons_eq; reflexivity. Qed.

Lemma ends_final (normal : ending) (o : outcome) :
  fst (ends normal o) = final o.
Proof. destruct o; reflexivity. Qed.

Lemma ends_finished (normal : ending) (o : outcome) (st : scan_state) :
  ends normal o = (st, Finished) -> normal = Finished /\ o = Returns st.
Proof.
  destruct o as [s | reason s]; simpl; intros H; [| discriminate H].
  injection H as -> ->. auto.
Qed.

Lemma found_le (result : option str) : found result <= 1.
Proof. destruct result; simpl; lia. Qed.

Lemma findings_sum_le (uni_alnum : char -> bool) (lines : list str) :
  list_sum (map (findings uni_alnum) lines) <= 3 * length lines.
Proof.
  induction lines as [|raw lines IH]; simpl; [lia |].
  unfold findings at 1.
  pose proof (found_le (match_email (strip raw))).
  pose proof (found_le (match_sensitive uni_alnum (strip raw))).
  pose proof (found_le (match_api_key (strip raw))). lia.
Qed.

Lemma lines_read_cons (uni_lower : str -> char -> str -> str) (os : os_view)
  (root : str) (dirs files : list str)
  (entries : list (str * list str * list str)) :
  lines_read uni_lower os ((root, dirs, files) :: entries)
  = flat_map
      (fun file =>
         if is_scanned uni_lower file
         then yielded (open_text os (path_join os root file))
         else [])
      files
    ++ lines_read uni_lower os entries.
Proof. reflexivity. Qed.

Section Run.

Variable uni_alnum : char -> bool.
Variable uni_lower : str -> char -> str -> str.
Variable stdout : list str -> str -> option str.

Lemma print_returns (text : str) (st st' : scan_state) :
  print stdout text st = Returns st' -> st' = written text st.
Proof.
  unfold print. destruct (stdout (printed st) text); intros H;
    [discriminate H | injection H as <-; reflexivity].
Qed.

Lemma print_raises (text reason : str) (st st' : scan_state) :
  print stdout text st = Raises reason st' -> st' = st.
Proof.
  unfold print. destruct (stdout (printed st) text); intros H;
    [injection H as _ <-; reflexivity | discriminate H].
Qed.

(** ** What a piece of the script counts and prints, however it is left *)

Lemma tame_returns (st : scan_state) : tame stdout 0 (Returns st) st.
Proof.
  exists 0, []. rewrite advance_none. split; [reflexivity |].
  split; [reflexivity |]. split; [lia |]. intros _. split; reflexivity.
Qed.

Lemma tame_step (b1 b2 : nat) (o o' : outcome) (st : scan_state) :
  tame stdout b1 o st -> tame stdout b2 o' (final o) ->
  tame stdout (b1 + b2) o' st.
Proof.
  intros (j1 & t1 & Hf1 & Hr1 & Hj1 & Hw1) (j2 & t2 & Hf2 & Hr2 & Hj2 & Hw2).
  exists (j1 + j2), (t1 ++ t2).
  split; [rewrite Hf2, Hf1; apply advance_advance |].
  split; [rewrite rules_app; lia |]. split; [lia |].
  intros W. destruct (Hw1 W) as [E1 _]. destruct (Hw2 W) as [E2 Hret].
  split; [lia |]. rewrite Hret, Hf1. f_equal. apply advance_advance.
Qed.

Lemma tame_bound (b b' : nat) (o : outcome) (st : scan_state) :
  b = b' -> tame stdout b o st -> tame stdout b' o st.
Proof. intros ->. auto. Qed.

Lemma tame_then (b1 b2 : nat) (o : outcome) (g : scan_state -> outcome)
  (st : scan_state) :
  tame stdout b1 o st -> (forall s, tame stdout b2 (g s) s) ->
  tame stdout (b1 + b2) (o >>= g) st.
Proof.
  intros Ho Hg. destruct o as [s | reason s]; cbn [and_then].
  - apply (tame_step b1 b2 (Returns s)); [exact Ho | apply Hg].
  - destruct Ho as (j & t & Hf & Hr & Hj & Hw). exists j, t.
    split; [exact Hf |]. split; [exact Hr |]. split; [lia |]. intros W.
    destruct (Hw W) as [_ E]. discriminate E.
Qed.

Lemma tame_catch (b : nat) (o : outcome) (st : scan_state)
  (normal : scan_state -> outcome) (handler : str -> scan_state -> outcome) :
  tame stdout b o st ->
  (forall s, tame stdout 0 (normal s) s) ->
  (forall reason s, tame stdout 0 (handler reason s) s) ->
  tame stdout b
    match o with
    | Returns s => normal s
    | Raises reason s => handler reason s
    end st.
Proof.
  intros Ho Hn Hh. rewrite <- (Nat.add_0_r b).
  destruct o as [s | reason s].
  - apply (tame_step b 0 (Returns s)); [exact Ho | apply Hn].
  - apply (tame_step b 0 (Raises reason s)); [exact Ho | apply Hh].
Qed.

Lemma tame_print (text : str) (st : scan_state) :
  hd 0%N text <> ch "-" -> tame stdout 0 (print stdout text st) st.
Proof.
  intros Ht. unfold print.
  destruct (stdout (printed st) text) as [reason|] eqn:E.
  - exists 0, []. rewrite advance_none. split; [reflexivity |].
    split; [reflexivity |]. split; [lia |]. intros W.
    rewrite (W (printed st) text) in E. discriminate E.
  - exists 0, [text]. split; [reflexivity |].
    split; [apply rules_other; exact Ht |]. split; [lia |].
    intros _. split; reflexivity.
Qed.

Lemma tame_rule (st : scan_state) :
  tame stdout 1 (print stdout rule st >>= count_hit) st.
Proof.
  unfold print. destruct (stdout (printed st) rule) as [reason|] eqn:E;
    cbn [and_then count_hit].
  - exists 0, []. rewrite advance_none. split; [reflexivity |].
    split; [reflexivity |]. split; [lia |]. intros W.
    rewrite (W (printed st) rule) in E. discriminate E.
  - exists 1, [rule]. split; [reflexivity |]. split; [apply rules_rule |].
    split; [lia |]. intros _. split; reflexivity.
Qed.

Lemma tame_alert4 (a b c : str) (st : scan_state) :
  hd 0%N a <> ch "-" -> hd 0%N b <> ch "-" -> hd 0%N c <> ch "-" ->
  tame stdout 1
    (print stdout a st >>= print stdout b >>= print stdout c
     >>= print stdout rule >>= count_hit) st.
Proof.
  intros Ha Hb Hc. rewrite (and_then_assoc _ (print stdout rule) count_hit).
  apply (tame_then 0 1); [| intros s; apply tame_rule].
  apply (tame_then 0 0); [| intros s; apply tame_print; exact Hc].
  apply (tame_then 0 0); [| intros s; apply tame_print; exact Hb].
  apply tame_print. exact Ha.
Qed.

Lemma tame_alert3 (a b : str) (st : scan_state) :
  hd 0%N a <> ch "-" -> hd 0%N b <> ch "-" ->
  tame stdout 1
    (print stdout a st >>= print stdout b >>= print stdout rule
     >>= count_hit) st.
Proof.
  intros Ha Hb. rewrite (and_then_assoc _ (print stdout rule) count_hit).
  apply (tame_then 0 1); [| intros s; apply tame_rule].
  apply (tame_then 0 0); [| intros s; apply tame_print; exact Hb].
  apply tame_print. exact Ha.
Qed.

Ltac no_rule := vm_compute; discriminate.

Lemma tame_scan_line (file : str) (n : nat) (raw : str) (st : scan_state) :
  tame stdout (findings uni_alnum raw)
    (scan_line uni_alnum stdout file n raw st) st.
Proof.
  unfold scan_line, findings.
  apply tame_then; [apply tame_then |].
  - destruct (match_email (strip raw)) as [m|]; cbn [when_found found];
      [apply tame_alert4; no_rule | apply tame_returns].
  - intros s.
    destruct (match_sensitive uni_alnum (strip raw)) as [m|];
      cbn [when_found found];
      [apply tame_alert3; no_rule | apply tame_returns].
  - intros s.
    destruct (match_api_key (strip raw)) as [m|]; cbn [when_found found];
      [apply tame_alert3; no_rule | apply tame_returns].
Qed.

Lemma tame_scan_lines (file : str) (lines : list str) (n : nat)
  (st : scan_state) :
  tame stdout (list_sum (map (findings uni_alnum) lines))
    (scan_lines uni_alnum stdout file n lines st) st.
Proof.
  revert n st. induction lines as [|raw lines IH]; intros n st;
    cbn [scan_lines map list_sum fold_right].
  - apply tame_returns.
  - apply tame_then; [apply tame_scan_line | intros s; apply IH].
Qed.

Lemma tame_print_error (file reason : str) (st : scan_state) :
  tame stdout 0 (print_error stdout file reason st) st.
Proof. apply tame_print. no_rule. Qed.

Lemma tame_scan_file (file : str) (view : file_view) (st : scan_state) :
  tame stdout (list_sum (map (findings uni_alnum) (yielded view)))
    (scan_file uni_alnum stdout file view st) st.
Proof.
  destruct view as [reason | lines failure]; cbn [scan_file yielded].
  - apply tame_print_error.
  - apply (tame_catch _ _ _
             (fun s => match failure with
                       | Some reason => print_error stdout file reason s
                       | None => Returns s
                       end)
             (print_error stdout file)).
    + apply tame_scan_lines.
    + intros s. destruct failure;
        [apply tame_print_error | apply tame_returns].
    + intros reason s. apply tame_print_error.
Qed.

Lemma tame_scan_files (os : os_view) (root : str) (files : list str)
  (st : scan_state) :
  tame stdout
    (list_sum
       (map (findings uni_alnum)
          (flat_map
             (fun file =>
                if is_scanned uni_lower file
                then yielded (open_text os (path_join os root file))
                else [])
             files)))
    (scan_files uni_alnum uni_lower stdout os root files st) st.
Proof.
  revert st. induction files as [|file files IH]; intros st;
    cbn [scan_files flat_map].
  - apply tame_returns.
  - rewrite map_app, list_sum_app. apply tame_then; [| intros s; apply IH].
    destruct (is_scanned uni_lower file);
      [apply tame_scan_file | apply tame_returns].
Qed.

Lemma tame_scan_tree (os : os_view)
  (entries : list (str * list str * list str)) (st : scan_state) :
  tame stdout
    (list_sum (map (findings uni_alnum) (lines_read uni_lower os entries)))
    (scan_tree uni_alnum uni_lower stdout os entries st) st.
Proof.
  revert st. induction entries as [|[[root dirs] files] entries IH];
    intros st; cbn [scan_tree].
  - apply tame_returns.
  - rewrite lines_read_cons, map_app, list_sum_app.
    apply tame_then; [apply tame_scan_files | intros s; apply IH].
Qed.

(** A piece of the script leaves as many rules as hits when it starts with
    as many. *)
Lemma tame_balanced (b : nat) (o : outcome) (st : scan_state) :
  tame stdout b o st -> rules (printed st) = hits st ->
  rules (printed (final o)) = hits (final o).
Proof.
  intros (j & t & -> & Hr & _) H. cbn [advance printed hits].
  rewrite rules_app. lia.
Qed.

Lemma tame_grows (b : nat) (o : outcome) (st : scan_state) :
  tame stdout b o st -> exists more, printed (final o) = printed st ++ more.
Proof. intros (j & t & -> & _). exists t. reflexivity. Qed.

(** The run in its two shapes: the directory is listed, and the run is the
    scan of the tree between the texts around it; or it is not, and the
    run does not reach its end. *)
Lemma data_hunter_cases (os : os_view) (directory : str) :
  let run := data_hunter uni_alnum uni_lower stdout os directory in
  (exists o,
      run = ends Finished (o >>= print_total stdout) /\
      tame stdout
        (list_sum
           (map (findings uni_alnum)
              (lines_read uni_lower os (walk os directory)))) o start) \/
  (snd run <> Finished /\
   exists o, fst run = final o /\ tame stdout 0 o start).
Proof.
  cbv zeta. unfold data_hunter.
  pose proof (tame_print ([newline] ++ txt "Scanning directory....") start)
    as H0.
  destruct (print stdout ([newline] ++ txt "Scanning directory....") start)
    as [st0 | reason st0] eqn:E0.
  2:{ right. split; [discriminate |]. eexists. split; [| apply H0; no_rule].
      reflexivity. }
  assert (Hstop : forall text,
             hd 0%N text <> ch "-" ->
             snd (ends Exited (print stdout text st0)) <> Finished /\
             exists o,
               fst (ends Exited (print stdout text st0)) = final o /\
               tame stdout 0 o start).
  { intros text Ht. split.
    - destruct (print stdout text st0); discriminate.
    - exists (print stdout text st0). split; [apply ends_final |].
      apply (tame_step 0 0 (Returns st0));
        [apply H0; no_rule | apply tame_print; exact Ht]. }
  destruct (listdir os directory).
  - left.
    exists (Returns st0
            >>= print stdout (txt "Directory scanned successfully.")
            >>= print stdout
                  ([newline] ++
                   txt "Opening Files and reading lines in each file.......")
            >>= print stdout (txt "This might take some time")
            >>= scan_tree uni_alnum uni_lower stdout os (walk os directory)
            >>= print stdout (txt "Operation completed succcessfully")).
    split; [reflexivity |].
    set (total := list_sum _).
    apply (tame_bound (0 + 0 + 0 + 0 + total + 0)); [lia |].
    apply tame_then; [| intros s; apply tame_print; no_rule].
    apply tame_then; [| intros s; apply tame_scan_tree].
    apply tame_then; [| intros s; apply tame_print; no_rule].
    apply tame_then; [| intros s; apply tame_print; no_rule].
    apply tame_then; [| intros s; apply tame_print; no_rule].
    apply H0. no_rule.
  - right. apply Hstop. no_rule.
  - right. apply Hstop. no_rule.
  - right. apply Hstop. no_rule.
  - right. split; [discriminate |]. exists (Returns st0).
    split; [reflexivity |]. apply H0. no_rule.
Qed.

(** ** Pieces of the script that return *)

Lemma prints4_returns (a b c d : str) (st st' : scan_state) :
  print stdout a st >>= print stdout b >>= print stdout c
  >>= print stdout d >>= count_hit = Returns st' ->
  st' = advance st 1 [a; b; c; d].
Proof.
  intros H.
  apply and_then_returns in H. destruct H as (s4 & H & H5).
  apply and_then_returns in H. destruct H as (s3 & H & H4).
  apply and_then_returns in H. destruct H as (s2 & H & H3).
  apply and_then_returns in H. destruct H as (s1 & H1 & H2).
  apply print_returns in H1, H2, H3, H4. subst s1 s2 s3 s4.
  injection H5 as <-. unfold advance, written. cbn [hits printed].
  rewrite <- !app_assoc. reflexivity.
Qed.

Lemma prints3_returns (a b c : str) (st st' : scan_state) :
  print stdout a st >>= print stdout b >>= print stdout c >>= count_hit
  = Returns st' ->
  st' = advance st 1 [a; b; c].
Proof.
  intros H.
  apply and_then_returns in H. destruct H as (s3 & H & H4).
  apply and_then_returns in H. destruct H as (s2 & H & H3).
  apply and_then_returns in H. destruct H as (s1 & H1 & H2).
  apply print_returns in H1, H2, H3. subst s1 s2 s3.
  injection H4 as <-. unfold advance, written. cbn [hits printed].
  rewrite <- !app_assoc. reflexivity.
Qed.

(** A line whose alerts are all printed: one hit for each matcher that
    finds something, and the texts of the e-mail alert, of the password
    alert and of the API-key alert, in this order. *)
Lemma scan_line_returns (file : str) (n : nat) (raw : str)
  (st st' : scan_state) :
  scan_line uni_alnum stdout file n raw st = Returns st' ->
  st' = advance st (findings uni_alnum raw)
          (email_texts file n (strip raw) (match_email (strip raw))
           ++ password_texts file n (match_sensitive uni_alnum (strip raw))
           ++ api_key_texts file n (match_api_key (strip raw))).
Proof.
  unfold scan_line, findings. intros H.
  apply and_then_returns in H. destruct H as (s2 & H & H3).
  apply and_then_returns in H. destruct H as (s1 & H1 & H2).
  assert (E1 : s1 = advance st (found (match_email (strip raw)))
                      (email_texts file n (strip raw)
                         (match_email (strip raw)))).
  { destruct (match_email (strip raw)) as [m|];
      cbn [when_found found email_texts] in H1 |- *.
    - apply prints4_returns in H1. exact H1.
    - injection H1 as <-. symmetry. apply advance_none. }
  assert (E2 : s2 = advance s1 (found (match_sensitive uni_alnum (strip raw)))
                      (password_texts file n
                         (match_sensitive uni_alnum (strip raw)))).
  { destruct (match_sensitive uni_alnum (strip raw)) as [m|];
      cbn [when_found found password_texts] in H2 |- *.
    - apply prints3_returns in H2. exact H2.
    - injection H2 as <-. symmetry. apply advance_none. }
  assert (E3 : st' = advance s2 (found (match_api_key (strip raw)))
                       (api_key_texts file n (match_api_key (strip raw)))).
  { destruct (match_api_key (strip raw)) as [m|];
      cbn [when_found found api_key_texts] in H3 |- *.
    - apply prints3_returns in H3. exact H3.
    - injection H3 as <-. symmetry. apply advance_none. }
  rewrite E3, E2, E1, !advance_advance. unfold advance.
  f_equal; try lia; rewrite <- ?app_assoc; reflexivity.
Qed.

Lemma scan_lines_app (file : str) (before after : list str) (n : nat)
  (st : scan_state) :
  scan_lines uni_alnum stdout file n (before ++ after) st
  = scan_lines uni_alnum stdout file n before st
    >>= scan_lines uni_alnum stdout file (n + length before) after.
Proof.
  revert n st. induction before as [|raw before IH]; intros n st;
    cbn [app scan_lines length and_then].
  - rewrite Nat.add_0_r. reflexivity.
  - rewrite and_then_assoc. apply and_then_ext. intros s. rewrite IH.
    replace (S n + length before) with (n + S (length before)) by lia.
    reflexivity.
Qed.

(** The output of the scan of a file whose first lines are scanned without
    exception holds what was printed for them. *)
Lemma scan_file_grows (file : str) (first rest : list str)
  (failure : option str) (st st1 : scan_state) :
  scan_lines uni_alnum stdout file 1 first st = Returns st1 ->
  exists more,
    printed (final (scan_file uni_alnum stdout file
                      (Yields (first ++ rest) failure) st))
    = printed st1 ++ more.
Proof.
  intros H. cbn [scan_file]. rewrite scan_lines_app, H. cbn [and_then].
  apply (tame_grows
           (list_sum (map (findings uni_alnum) rest))).
  apply (tame_catch _ _ _
           (fun s => match failure with
                     | Some reason => print_error stdout file reason s
                     | None => Returns s
                     end)
           (print_error stdout file)).
  - apply tame_scan_lines.
  - intros s. destruct failure;
      [apply tame_print_error | apply tame_returns].
  - intros reason s. apply tame_print_error.
Qed.

End Run.

(** ** Alerts and the counter *)

(** A run that reaches its end has counted at most one hit for each
    matcher and each line on which the matcher finds something, over the
    lines of the files that pass the filter, the lines read before a
    failure included; so at most three for a line.  It has counted exactly
    that many on a console that writes every text: an alert whose [print]
    raises is not counted. *)
Theorem data_hunter_hits (uni_alnum : char -> bool)
  (uni_lower : str -> char -> str -> str)
  (stdout : list str -> str -> option str) (os : os_view) (directory : str)
  (st : scan_state) :
  data_hunter uni_alnum uni_lower stdout os directory = (st, Finished) ->
  hits st
  <= list_sum (map (findings uni_alnum)
                 (lines_read uni_lower os (walk os directory))) /\
  hits st <= 3 * length (lines_read uni_lower os (walk os directory)) /\
  (writes_all stdout ->
   hits st
   = list_sum (map (findings uni_alnum)
                 (lines_read uni_lower os (walk os directory)))).
Proof.
  intros H.
  destruct (data_hunter_cases uni_alnum uni_lower stdout os directory)
    as [(o & Hrun & Ho) | [Hnot _]].
  2:{ rewrite H in Hnot. exfalso. apply Hnot. reflexivity. }
  rewrite H in Hrun. symmetry in Hrun. apply ends_finished in Hrun.
  destruct Hrun as [_ Hrun]. apply and_then_returns in Hrun.
  destruct Hrun as (s1 & Hs1 & Hp). apply print_returns in Hp. subst st.
  cbn [written hits].
  destruct Ho as (j & texts & Hf & _ & Hj & Hw). rewrite Hs1 in Hf.
  cbn [final] in Hf. subst s1. cbn [advance hits start].
  pose proof (findings_sum_le uni_alnum
                (lines_read uni_lower os (walk os directory))).
  split; [lia |]. split; [lia |]. intros W. destruct (Hw W) as [-> _]. lia.
Qed.

(** ** Rules and hits *)

(** However a run ends, it has printed as many rules as it has counted
    hits; and a run that reaches its end prints that count last. *)
Theorem data_hunter_total (uni_alnum : char -> bool)
  (uni_lower : str -> char -> str -> str)
  (stdout : list str -> str -> option str) (os : os_view) (directory : str)
  (st : scan_state) (e : ending) :
  data_hunter uni_alnum uni_lower stdout os directory = (st, e) ->
  rules (printed st) = hits st /\
  (e = Finished ->
   last (printed st) []
   = txt "Total issues found so far: " ++ decimal (hits st)).
Proof.
  intros H.
  destruct (data_hunter_cases uni_alnum uni_lower stdout os directory)
    as [(o & Hrun & Ho) | [Hnot (o & Hfst & Ho)]]; rewrite H in *.
  - split.
    + replace st with (fst (st, e)) by reflexivity. rewrite Hrun, ends_final.
      apply (tame_balanced stdout
               (list_sum
                  (map (findings uni_alnum)
                     (lines_read uni_lower os (walk os directory))) + 0)
               _ start); [| reflexivity].
      apply tame_then; [exact Ho |]. intros s. apply tame_print.
      vm_compute. discriminate.
    + intros ->. symmetry in Hrun. apply ends_finished in Hrun.
      destruct Hrun as [_ Hrun]. apply and_then_returns in Hrun.
      destruct Hrun as (s1 & _ & Hp). apply print_returns in Hp. subst st.
      cbn [written printed hits]. apply last_last.
  - cbn [fst snd] in Hfst, Hnot. split; [| intros ->; congruence].
    rewrite Hfst. apply (tame_balanced stdout 0 _ start Ho). reflexivity.
Qed.

(** ** Files that are not opened *)

Lemma scan_files_same (uni_alnum : char -> bool)
  (uni_lower : str -> char -> str -> str)
  (stdout : list str -> str -> option str) (os1 os2 : os_view) (root : str)
  (files : list str) (st : scan_state) :
  (forall file,
      In file files -> is_scanned uni_lower file = true ->
      open_text os1 (path_join os1 root file)
      = open_text os2 (path_join os2 root file)) ->
  scan_files uni_alnum uni_lower stdout os1 root files st
  = scan_files uni_alnum uni_lower stdout os2 root files st.
Proof.
  revert st. induction files as [|file files IH]; intros st H;
    cbn [scan_files]; [reflexivity |].
  assert (Hrest : forall s,
             scan_files uni_alnum uni_lower stdout os1 root files s
             = scan_files uni_alnum uni_lower stdout os2 root files s).
  { intros s. apply IH. intros f Hf. apply H. right. exact Hf. }
  rewrite (and_then_ext _ _ _ Hrest).
  destruct (is_scanned uni_lower file) eqn:E; [| reflexivity].
  rewrite (H file) by (auto; left; reflexivity). reflexivity.
Qed.

Lemma scan_tree_same (uni_alnum : char -> bool)
  (uni_lower : str -> char -> str -> str)
  (stdout : list str -> str -> option str) (os1 os2 : os_view)
  (entries : list (str * list str * list str)) (st : scan_state) :
  (forall root dirs files file,
      In (root, dirs, files) entries -> In file files ->
      is_scanned uni_lower file = true ->
      open_text os1 (path_join os1 root file)
      = open_text os2 (path_join os2 root file)) ->
  scan_tree uni_alnum uni_lower stdout os1 entries st
  = scan_tree uni_alnum uni_lower stdout os2 entries st.
Proof.
  revert st. induction entries as [|[[root dirs] files] entries IH];
    intros st H; cbn [scan_tree]; [reflexivity |].
  assert (Hrest : forall s,
             scan_tree uni_alnum uni_lower stdout os1 entries s
             = scan_tree uni_alnum uni_lower stdout os2 entries s).
  { intros s. apply IH. intros r d fs f Hin. apply (H r d fs f). right.
    exact Hin. }
  rewrite (and_then_ext _ _ _ Hrest).
  rewrite (scan_files_same uni_alnum uni_lower stdout os1 os2 root files st);
    [reflexivity |].
  intros f Hf. apply (H root dirs files f); [left; reflexivity | exact Hf].
Qed.

(** Only the files that pass the filter are opened: two systems that give
    the same directory listing and the same walk, and the same view of
    every file of the walk that passes the filter, give the same run,
    whatever the other files are. *)
Theorem data_hunter_opens_filtered_only (uni_alnum : char -> bool)
  (uni_lower : str -> char -> str -> str)
  (stdout : list str -> str -> option str) (os1 os2 : os_view)
  (directory : str) :
  listdir os1 directory = listdir os2 directory ->
  walk os1 directory = walk os2 directory ->
  (forall root dirs files file,
      In (root, dirs, files) (walk os1 directory) -> In file files ->
      is_scanned uni_lower file = true ->
      open_text os1 (path_join os1 root file)
      = open_text os2 (path_join os2 root file)) ->
  data_hunter uni_alnum uni_lower stdout os1 directory
  = data_hunter uni_alnum uni_lower stdout os2 directory.
Proof.
  intros Hl Hw Hopen. unfold data_hunter. rewrite <- Hl, <- Hw.
  destruct (print stdout _ start) as [st0 | reason st0]; [| reflexivity].
  destruct (listdir os1 directory); try reflexivity.
  assert (Hrest : forall s,
             scan_tree uni_alnum uni_lower stdout os1 (walk os1 directory) s
             = scan_tree uni_alnum uni_lower stdout os2 (walk os1 directory)
                 s).
  { intros s. apply scan_tree_same. exact Hopen. }
  rewrite (and_then_ext _ _ _ Hrest). reflexivity.
Qed.

(** ** One line *)

(** A line of white space only, the empty line too, raises no alert. *)
Theorem scan_line_blank (uni_alnum : char -> bool)
  (stdout : list str -> str -> option str) (file : str) (n : nat)
  (raw : str) (st : scan_state) :
  blanks raw -> scan_line uni_alnum stdout file n raw st = Returns st.
Proof.
  intros H. unfold scan_line. rewrite strip_blanks by exact H.
  change (match_email []) with (@None str).
  change (match_api_key []) with (@None str).
  change (match_sensitive uni_alnum []) with (@None str).
  reflexivity.
Qed.

Lemma lang_api_key_tail (m : str) :
  lang api_key_regex m -> exists a t, m = a ++ t /\ lang assignment_tail t.
Proof.
  unfold api_key_regex. cbn [cats lang].
  intros (s1 & r1 & -> & _ & s2 & r2 & -> & _ & s3 & r3 & -> & _
          & t & e & -> & Ht & ->).
  exists (s1 ++ s2 ++ s3), t. rewrite app_nil_r.
  repeat rewrite <- app_assoc. auto.
Qed.

(** A line on which the API-key matcher finds something is a line on which
    the password matcher finds something too: an API KEY alert never comes
    without a PASSWORD alert, and a line whose alerts are all printed
    counts for two hits at least. *)
Theorem api_key_alert_counts_twice (uni_alnum : char -> bool)
  (stdout : list str -> str -> option str) (file : str) (n : nat)
  (raw : str) (st : scan_state) :
  match_api_key (strip raw) <> None ->
  match_sensitive uni_alnum (strip raw) <> None /\
  forall st',
    scan_line uni_alnum stdout file n raw st = Returns st' ->
    2 + hits st <= hits st'.
Proof.
  intros H.
  assert (Hp : match_sensitive uni_alnum (strip raw) <> None).
  { destruct (match_api_key (strip raw)) as [m|] eqn:Hm; [| congruence].
    apply search_sound in Hm. destruct Hm as [(pre & post & Hline) Hl].
    destruct (lang_api_key_tail _ Hl) as (a & t & -> & Ht).
    apply (search_complete _ _ t).
    - exists (pre ++ a), post. rewrite Hline.
      repeat rewrite <- app_assoc. reflexivity.
    - unfold sensitive_data_regex. cbn [cats].
      apply (lang_cat _ _ []); [exists [], [], 0; simpl; auto |].
      apply lang_last. exact Ht. }
  split; [exact Hp |]. intros st' Hret.
  apply scan_line_returns in Hret. subst st'. cbn [advance hits].
  unfold findings.
  destruct (match_api_key (strip raw)); [| congruence].
  destruct (match_sensitive uni_alnum (strip raw)); [| congruence].
  simpl. lia.
Qed.

(** The lines of a file are numbered from 1: when the lines of a file are
    scanned without exception up to the line that follows [k] lines, what a
    matcher finds on that line is announced with the file name and the
    number [k + 1], whatever happens further on in the file. *)
Theorem alert_line_number (uni_alnum : char -> bool)
  (stdout : list str -> str -> option str) (file : str)
  (before after : list str) (raw : str) (failure : option str)
  (st st1 : scan_state) :
  scan_lines uni_alnum stdout file 1 (before ++ [raw]) st = Returns st1 ->
  let out :=
    printed (final (scan_file uni_alnum stdout file
                      (Yields (before ++ raw :: after) failure) st)) in
  let place := where_found file (length before + 1) in
  (match_email (strip raw) <> None ->
   In (txt "[ALERT: EMAIL] Found in " ++ place) out) /\
  (match_sensitive uni_alnum (strip raw) <> None ->
   In (txt "[ALERT: PASSWORD] Found in " ++ place) out) /\
  (match_api_key (strip raw) <> None ->
   In (txt "[ALERT: API KEY] Found in " ++ place) out).
Proof.
  intros Hret out place.
  assert (Hout : exists more, out = printed st1 ++ more).
  { subst out.
    replace (before ++ raw :: after) with ((before ++ [raw]) ++ after)
      by (rewrite <- app_assoc; reflexivity).
    apply (scan_file_grows uni_alnum stdout file _ _ _ _ _ Hret). }
  destruct Hout as (more & Hout).
  rewrite scan_lines_app in Hret. apply and_then_returns in Hret.
  destruct Hret as (s0 & _ & Hline). cbn [scan_lines] in Hline.
  apply and_then_returns in Hline. destruct Hline as (s1 & Hline & E).
  injection E as ->. apply scan_line_returns in Hline.
  rewrite (Nat.add_comm 1 (length before)) in Hline. fold place in Hline.
  assert (Hst1 : printed st1
                 = printed s0
                   ++ email_texts file (length before + 1) (strip raw)
                        (match_email (strip raw))
                   ++ password_texts file (length before + 1)
                        (match_sensitive uni_alnum (strip raw))
                   ++ api_key_texts file (length before + 1)
                        (match_api_key (strip raw)))
    by (rewrite Hline; reflexivity).
  split; [| split]; intros H; rewrite Hout, Hst1; apply in_or_app; left;
    apply in_or_app; right.
  - apply in_or_app. left.
    destruct (match_email (strip raw)); [left; reflexivity | congruence].
  - apply in_or_app. right. apply in_or_app. left.
    destruct (match_sensitive uni_alnum (strip raw));
      [left; reflexivity | congruence].
  - apply in_or_app. right. apply in_or_app. right.
    destruct (match_api_key (strip raw)); [left; reflexivity | congruence].
Qed.

(** ** The filter on file names *)

Lemma str_eqb_eq (a b : str) : str_eqb a b = true <-> a = b.
Proof.
  revert b. induction a as [|x a IH]; intros [|y b]; simpl;
    try (split; [discriminate | discriminate]); [tauto |].
  rewrite andb_true_iff, N.eqb_eq, IH. split.
  - intros [-> ->]. reflexivity.
  - intros H. injection H as -> ->. auto.
Qed.

Lemma endswith_app (base suffix : str) :
  endswith (base ++ suffix) suffix = true.
Proof.
  unfold endswith. rewrite length_app. apply andb_true_iff. split.
  - apply Nat.leb_le. lia.
  - apply str_eqb_eq. rewrite Nat.add_sub, skipn_app, skipn_all,
      Nat.sub_diag. reflexivity.
Qed.

Lemma endswith_inv (s suffix : str) :
  endswith s suffix = true -> exists base, s = base ++ suffix.
Proof.
  unfold endswith. intros H. apply andb_true_iff in H.
  destruct H as [_ H]. apply str_eqb_eq in H.
  exists (firstn (length s - length suffix) s).
  rewrite <- H at 2. symmetry. apply firstn_skipn.
Qed.

Lemma lower_from_ascii (uni_lower : str -> char -> str -> str)
  (before s : str) :
  Forall (fun c => (c < 128)%N) s ->
  lower_from uni_lower before s = map ascii_lower s.
Proof.
  intros H. revert before.
  induction H as [|c s Hc _ IH]; intros before; simpl; [reflexivity |].
  apply N.ltb_lt in Hc. rewrite Hc, IH. reflexivity.
Qed.

Lemma lower_from_app (uni_lower : str -> char -> str -> str)
  (before base e : str) :
  Forall (fun c => (c < 128)%N) e ->
  exists y,
    lower_from uni_lower before (base ++ e) = y ++ map ascii_lower e.
Proof.
  intros He. revert before. induction base as [|c base IH]; intros before.
  - exists []. apply lower_from_ascii. exact He.
  - cbn [app lower_from]. destruct (IH (before ++ [c])) as (y & ->).
    eexists. apply app_assoc.
Qed.

Lemma ascii_lower_ascii (c : char) :
  (ascii_lower c < 128)%N -> (c < 128)%N.
Proof.
  unfold ascii_lower, range.
  destruct (N.leb_spec 65 c); destruct (N.leb_spec c 90); simpl; lia.
Qed.

Lemma extension_ascii (e : str) :
  In (map ascii_lower e) extensions -> Forall (fun c => (c < 128)%N) e.
Proof.
  intros H.
  assert (Hx : Forall (fun c => (c < 128)%N) (map ascii_lower e)).
  { assert (Hall : Forall (Forall (fun c => (c < 128)%N)) extensions).
    { repeat (apply Forall_cons;
              [repeat (apply Forall_cons; [reflexivity |]); apply Forall_nil
              |]).
      apply Forall_nil. }
    rewrite Forall_forall in Hall. apply Hall. exact H. }
  rewrite Forall_map in Hx. revert Hx. apply Forall_impl.
  intros c. apply ascii_lower_ascii.
Qed.

Lemma is_scanned_suffix (uni_lower : str -> char -> str -> str)
  (base e : str) :
  In (map ascii_lower e) extensions ->
  is_scanned uni_lower (base ++ e) = true.
Proof.
  intros H. unfold is_scanned. apply existsb_exists.
  exists (map ascii_lower e). split; [exact H |]. unfold lower.
  destruct (lower_from_app uni_lower [] base e (extension_ascii e H))
    as (y & ->).
  apply endswith_app.
Qed.

(** A file whose name ends with one of the eight extensions, written in
    any mix of upper and lower case, is opened; the name may also be the
    extension alone.  For a name of ASCII characters these are the only
    files that are opened. *)
Theorem is_scanned_spec (uni_lower : str -> char -> str -> str)
  (file : str) :
  ((exists base e,
       file = base ++ e /\ In (map ascii_lower e) extensions) ->
   is_scanned uni_lower file = true) /\
  (Forall (fun c => (c < 128)%N) file ->
   is_scanned uni_lower file = true ->
   exists base e,
     file = base ++ e /\ In (map ascii_lower e) extensions).
Proof.
  split.
  - intros (base & e & -> & H). apply is_scanned_suffix. exact H.
  - intros Hfile. unfold is_scanned, lower.
    rewrite lower_from_ascii by exact Hfile.
    intros H. apply existsb_exists in H. destruct H as (ext & Hin & Hend).
    apply endswith_inv in Hend. destruct Hend as (b & Hb).
    exists (firstn (length b) file), (skipn (length b) file).
    split; [symmetry; apply firstn_skipn |].
    rewrite <- skipn_map, Hb, skipn_app, skipn_all, Nat.sub_diag.
    exact Hin.
Qed.

Lemma is_scanned_spec_witness :
  is_scanned (fun _ c _ => [c]) (txt "README.MD") = true.
Proof.
  apply (proj1 (is_scanned_spec (fun _ c _ => [c]) (txt "README.MD"))).
  exists (txt "README"), (txt ".MD"). split; [reflexivity |].
  vm_compute. auto 10.
Defined.

(** ** Decoding the bytes of a file *)

Ltac Zify.zify_post_hook ::= Z.to_euclidean_division_equations.

Lemma utf8_decode_eq (b0 : N) (r0 : list N) :
  utf8_decode (b0 :: r0) =
  (if b0 <? 128 then b0 :: utf8_decode r0
   else if b0 <? 194 then utf8_decode r0
   else if b0 <? 224 then
     match r0 with
     | [] => []
     | b1 :: r1 =>
         if continuation b1
         then ((b0 - 192) * 64 + (b1 - 128)) :: utf8_decode r1
         else utf8_decode r0
     end
   else if b0 <? 240 then
     match r0 with
     | [] => []
     | b1 :: r1 =>
         if second_of_three b0 b1 then
           match r1 with
           | [] => []
           | b2 :: r2 =>
               if continuation b2
               then ((b0 - 224) * 4096 + (b1 - 128) * 64 + (b2 - 128))
                      :: utf8_decode r2
               else utf8_decode r1
           end
         else utf8_decode r0
     end
   else if b0 <? 245 then
     match r0 with
     | [] => []
     | b1 :: r1 =>
         if second_of_four b0 b1 then
           match r1 with
           | [] => []
           | b2 :: r2 =>
               if continuation b2 then
                 match r2 with
                 | [] => []
                 | b3 :: r3 =>
                     if continuation b3
                     then ((b0 - 240) * 262144 + (b1 - 128) * 4096
                           + (b2 - 128) * 64 + (b3 - 128))
                            :: utf8_decode r3
                     else utf8_decode r2
                 end
               else utf8_decode r1
           end
         else utf8_decode r0
     end
   else utf8_decode r0)%N.
Proof. reflexivity. Qed.

Ltac split_tests :=
  repeat (match goal with
          | |- context [N.ltb ?a ?b] => destruct (N.ltb_spec a b)
          | |- context [N.leb ?a ?b] => destruct (N.leb_spec a b)
          | |- context [N.eqb ?a ?b] => destruct (N.eqb_spec a b)
          end; cbn [andb]; try lia).

Lemma utf8_decode_char (c : char) (bytes : list N) :
  scalar c ->
  utf8_decode (utf8_encode_char c ++ bytes) = c :: utf8_decode bytes.
Proof.
  unfold scalar, utf8_encode_char. intros Hc.
  destruct (N.ltb_spec c 128); [| destruct (N.ltb_spec c 2048);
                                  [| destruct (N.ltb_spec c 65536)]];
    cbn [app]; rewrite utf8_decode_eq;
    unfold second_of_three, second_of_four, continuation;
    cbv beta iota; split_tests; f_equal; lia.
Qed.

Lemma utf8_decode_text (s : str) (bytes : list N) :
  Forall scalar s ->
  utf8_decode (utf8_encode s ++ bytes) = s ++ utf8_decode bytes.
Proof.
  intros H. induction H as [|c s Hc _ IH]; [reflexivity |].
  cbn [utf8_encode flat_map app]. rewrite <- app_assoc.
  rewrite utf8_decode_char by exact Hc.
  f_equal. exact IH.
Qed.

(** A file of well-formed UTF-8 is read as the text it encodes; a file of
    ASCII bytes is read byte for byte. *)
Theorem utf8_decode_encode (s : str) :
  Forall scalar s -> utf8_decode (utf8_encode s) = s.
Proof.
  intros H. rewrite <- (app_nil_r (utf8_encode s)).
  rewrite utf8_decode_text by exact H. apply app_nil_r.
Qed.

(** A byte that starts no sequence, met after well-formed text, is left
    out, and the bytes after it are decoded as if it were not there. *)
Theorem utf8_decode_stray (s : str) (b : N) (rest : list N) :
  Forall scalar s -> stray b ->
  utf8_decode (utf8_encode s ++ b :: rest) = s ++ utf8_decode rest.
Proof.
  intros Hs Hb. rewrite utf8_decode_text by exact Hs. f_equal.
  rewrite utf8_decode_eq. unfold stray in Hb. split_tests; reflexivity.
Qed.

Lemma utf8_decode_scalar_bound (n : nat) (bytes : list N) :
  length bytes <= n -> Forall scalar (utf8_decode bytes).
Proof.
  revert bytes. induction n as [|n IH]; intros bytes Hn.
  - destruct bytes; [apply Forall_nil | simpl in Hn; lia].
  - destruct bytes as [|b0 r0]; [apply Forall_nil |].
    rewrite utf8_decode_eq.
    unfold second_of_three, second_of_four, continuation.
    repeat (match goal with
            | |- context [match ?l with [] => _ | _ :: _ => _ end] =>
                is_var l; destruct l
            | |- context [N.ltb ?a ?b] => destruct (N.ltb_spec a b)
            | |- context [N.leb ?a ?b] => destruct (N.leb_spec a b)
            | |- context [N.eqb ?a ?b] => destruct (N.eqb_spec a b)
            end; cbn [andb]; cbv beta iota);
      try apply Forall_nil;
      try (apply Forall_cons; [unfold scalar; lia |]);
      apply IH; cbn [length] in Hn |- *; lia.
Qed.

(** Whatever the bytes of a file are, the text read holds Unicode scalar
    values only: no surrogate, nothing above U+10FFFF. *)
Theorem utf8_decode_scalar (bytes : list N) :
  Forall scalar (utf8_decode bytes).
Proof. apply (utf8_decode_scalar_bound (length bytes)). apply Nat.le_refl. Qed.

(** ** The lines of a file *)

Lemma text_lines_shape (n : nat) (text current : str) :
  length text <= n -> no_break current ->
  Forall (fun raw =>
            exists content,
              no_break content /\
              (raw = content ++ [newline] \/ raw = content))
    (text_lines current text).
Proof.
  revert text current. induction n as [|n IH]; intros text current Hn Hc.
  - destruct text; [| simpl in Hn; lia]. simpl.
    destruct current; [apply Forall_nil |].
    apply Forall_cons; [| apply Forall_nil]. eexists. eauto.
  - destruct text as [|c text].
    { simpl. destruct current; [apply Forall_nil |].
      apply Forall_cons; [| apply Forall_nil]. eexists. eauto. }
    assert (Hempty : no_break []) by (split; intros []).
    assert (Hline : exists content,
               no_break content /\
               (current ++ [newline] = content ++ [newline] \/
                current ++ [newline] = content)) by eauto.
    cbn [text_lines]. cbn [length] in Hn.
    destruct (N.eqb_spec c 13) as [-> | H13].
    + destruct text as [|c' text].
      * apply Forall_cons; [exact Hline | apply Forall_nil].
      * cbn [length] in Hn.
        destruct (N.eqb_spec c' 10) as [-> | H10];
          (apply Forall_cons; [exact Hline |]);
          apply IH; try exact Hempty; cbn [length]; lia.
    + destruct (N.eqb_spec c 10) as [-> | H10].
      * apply Forall_cons; [exact Hline |].
        apply IH; [lia | exact Hempty].
      * apply IH; [lia |]. destruct Hc as [Hn10 Hn13]. split;
          intros Hin; apply in_app_or in Hin;
          destruct Hin as [Hin | [Hin | []]]; auto.
Qed.

Lemma strip_occurs (s : str) (c : char) : In c (strip s) -> In c s.
Proof.
  destruct (strip_decompose s) as (ws1 & ws2 & Hs & _ & _).
  intros H. rewrite Hs. apply in_or_app. right. apply in_or_app. left.
  exact H.
Qed.

Lemma strip_line_no_break (content : str) :
  no_break content -> no_break (strip (content ++ [newline])).
Proof.
  intros [Hn10 Hn13]. split; intros Hin.
  - destruct (lstrip_spec (content ++ [newline])) as (ws1 & Hs & _ & _).
    destruct (rstrip_spec (lstrip (content ++ [newline])))
      as (ws2 & Hl & _ & Hlast).
    fold (strip (content ++ [newline])) in Hl, Hlast.
    apply in_split in Hin. destruct Hin as (t1 & t2 & Ht).
    rewrite Hl, Ht in Hs. repeat rewrite <- app_assoc in Hs.
    cbn [app] in Hs. rewrite app_assoc in Hs.
    apply split_unique in Hs; [| exact Hn10 | intros []].
    destruct Hs as [_ Hs]. symmetry in Hs. apply app_eq_nil in Hs.
    destruct Hs as [-> _].
    specialize (Hlast t1 newline Ht). discriminate Hlast.
  - apply strip_occurs in Hin. apply in_app_or in Hin.
    destruct Hin as [Hin | [Hin | []]]; [auto | discriminate Hin].
Qed.

(** No line given to the matchers holds a line feed or a carriage return:
    a finding never runs over two lines of the file. *)
Theorem text_lines_no_break (text : str) :
  Forall (fun raw => no_break (strip raw)) (text_lines [] text).
Proof.
  assert (H := text_lines_shape (length text) text [] (Nat.le_refl _)).
  assert (Hempty : no_break []) by (split; intros []).
  specialize (H Hempty). revert H. apply Forall_impl.
  intros raw (content & Hc & [-> | ->]).
  - apply strip_line_no_break. exact Hc.
  - destruct Hc as [H10 H13]. split; intros Hin;
      apply strip_occurs in Hin; auto.
Qed.

(** ** Alerts that cannot be printed *)






(** ** A root that cannot be listed *)

(** When the directory given cannot be listed nothing is scanned: the run
    does not reach its end, counts no hit, prints its first text and at
    most the error, and nothing of the system beyond the listing has a
    part in it. *)
Theorem data_hunter_bad_root (uni_alnum : char -> bool)
  (uni_lower : str -> char -> str -> str)
  (stdout : list str -> str -> option str) (os1 os2 : os_view)
  (directory : str) :
  listdir os1 directory <> Listed ->
  listdir os2 directory = listdir os1 directory ->
  data_hunter uni_alnum uni_lower stdout os1 directory
  = data_hunter uni_alnum uni_lower stdout os2 directory /\
  hits (fst (data_hunter uni_alnum uni_lower stdout os1 directory)) = 0 /\
  snd (data_hunter uni_alnum uni_lower stdout os1 directory) <> Finished /\
  length (printed (fst (data_hunter uni_alnum uni_lower stdout os1
                          directory)))
  <= 2.
Proof.
  intros Hbad Hsame. unfold data_hunter. rewrite Hsame.
  destruct (print stdout ([newline] ++ txt "Scanning directory....") start)
    as [st0 | reason st0] eqn:E0.
  2:{ apply print_raises in E0. subst st0. cbn [fst snd hits printed start].
      repeat split; try discriminate; auto. }
  apply print_returns in E0. subst st0.
  assert (Hstop : forall text,
             let run := ends Exited (print stdout text
                                       (written
                                          ([newline]
                                             ++ txt "Scanning directory....")
                                          start)) in
             hits (fst run) = 0 /\ snd run <> Finished /\
             length (printed (fst run)) <= 2).
  { intros text run. subst run. unfold print.
    destruct (stdout _ text); cbn [ends fst snd hits printed written start
                                    length app];
      repeat split; try discriminate; auto. }
  destruct (listdir os1 directory); [congruence | | | |];
    (split; [reflexivity |]); try apply Hstop.
  cbn [fst snd hits printed written start length app].
  repeat split; try discriminate; auto.
Qed.

(** ** The theorems at work on small inputs *)

Lemma scan_line_blank_witness :
  scan_line (fun _ => false) any_console (txt "a.txt") 1
    (txt "   " ++ [newline]) start
  = Returns start.
Proof.
  apply (scan_line_blank (fun _ => false) any_console (txt "a.txt") 1
           (txt "   " ++ [newline]) start).
  repeat (apply Forall_cons; [reflexivity |]). apply Forall_nil.
Defined.

Lemma api_key_alert_counts_twice_witness :
  match_sensitive (fun _ => false) (strip (txt " api_key = 'k' ")) <> None /\
  2 + hits start
  <= hits (final (scan_line (fun _ => false) any_console (txt "a.txt") 1
                    (txt " api_key = 'k' ") start)).
Proof.
  destruct (api_key_alert_counts_twice (fun _ => false) any_console
              (txt "a.txt") 1 (txt " api_key = 'k' ") start) as [Hp Hhits].
  - vm_compute. discriminate.
  - split; [exact Hp |]. apply Hhits. vm_compute. reflexivity.
Defined.

Lemma data_hunter_hits_witness :
  let run :=
    data_hunter (fun _ => false) (fun _ c _ => [c]) any_console
      (example_os (OpenFails (txt "denied"))) (txt "proj") in
  let total :=
    list_sum
      (map (findings (fun _ => false))
         (lines_read (fun _ c _ => [c])
            (example_os (OpenFails (txt "denied"))) example_walk)) in
  hits (fst run) <= total /\
  hits (fst run)
  <= 3 * length
           (lines_read (fun _ c _ => [c])
              (example_os (OpenFails (txt "denied"))) example_walk) /\
  hits (fst run) = total.
Proof.
  intros run total.
  destruct (data_hunter_hits (fun _ => false) (fun _ c _ => [c]) any_console
              (example_os (OpenFails (txt "denied"))) (txt "proj") (fst run))
    as (Hle & Hthree & Heq).
  - vm_compute. reflexivity.
  - split; [exact Hle |]. split; [exact Hthree |]. apply Heq.
    intros out text. reflexivity.
Defined.

Lemma data_hunter_total_witness :
  let run :=
    data_hunter (fun _ => false) (fun _ c _ => [c]) any_console
      (example_os (OpenFails (txt "denied"))) (txt "proj") in
  rules (printed (fst run)) = hits (fst run) /\
  (Finished = Finished ->
   last (printed (fst run)) []
   = txt "Total issues found so far: " ++ decimal (hits (fst run))).
Proof.
  intros run.
  apply (data_hunter_total (fun _ => false) (fun _ c _ => [c]) any_console
           (example_os (OpenFails (txt "denied"))) (txt "proj") (fst run)
           Finished).
  vm_compute. reflexivity.
Defined.

Lemma data_hunter_opens_filtered_only_witness :
  data_hunter (fun _ => false) (fun _ c _ => [c]) any_console
    (example_os (OpenFails (txt "denied"))) (txt "proj")
  = data_hunter (fun _ => false) (fun _ c _ => [c]) any_console
      (example_os (readable (txt "password = 'x'"))) (txt "proj").
Proof.
  apply (data_hunter_opens_filtered_only (fun _ => false)
           (fun _ c _ => [c]) any_console
           (example_os (OpenFails (txt "denied")))
           (example_os (readable (txt "password = 'x'"))) (txt "proj")).
  - reflexivity.
  - reflexivity.
  - intros root dirs files file Hin Hfile Hscanned.
    destruct Hin as [Hin | []]. injection Hin as <- _ <-.
    destruct Hfile as [<- | [<- | []]].
    + reflexivity.
    + discriminate Hscanned.
Defined.

Lemma data_hunter_bad_root_witness :
  let run os :=
    data_hunter (fun _ => false) (fun _ c _ => [c]) any_console os
      (txt "nowhere") in
  run (example_os (OpenFails (txt "denied")))
  = run (example_os (readable (txt "password = 'x'"))) /\
  hits (fst (run (example_os (OpenFails (txt "denied"))))) = 0 /\
  snd (run (example_os (OpenFails (txt "denied")))) <> Finished /\
  length (printed (fst (run (example_os (OpenFails (txt "denied")))))) <= 2.
Proof.
  intros run.
  apply (data_hunter_bad_root (fun _ => false) (fun _ c _ => [c]) any_console
           (example_os (OpenFails (txt "denied")))
           (example_os (readable (txt "password = 'x'"))) (txt "nowhere")).
  - discriminate.
  - reflexivity.
Defined.

Lemma alert_line_number_witness :
  In (txt "[ALERT: EMAIL] Found in notes.txt (Line 2)")
    (printed
       (final
          (scan_file (fun _ => false) any_console (txt "notes.txt")
             (Yields [txt "first line"; txt " mail a.b@c.de now "] None)
             start))).
Proof.
  refine (proj1 (alert_line_number (fun _ => false) any_console
                   (txt "notes.txt") [txt "first line"] []
                   (txt " mail a.b@c.de now ") None start _ _) _).
  - vm_compute. reflexivity.
  - vm_compute. discriminate.
Defined.

Lemma utf8_decode_encode_witness :
  utf8_decode (utf8_encode [104; 233; 8364; 128512]%N)
  = [104; 233; 8364; 128512]%N.
Proof.
  apply (utf8_decode_encode [104; 233; 8364; 128512]%N).
  repeat (apply Forall_cons; [unfold scalar; lia |]). apply Forall_nil.
Defined.

Lemma utf8_decode_stray_witness :
  utf8_decode (utf8_encode (txt "key") ++ 255%N :: [61; 34; 120; 34]%N)
  = txt "key" ++ utf8_decode [61; 34; 120; 34]%N.
Proof.
  apply (utf8_decode_stray (txt "key") 255%N [61; 34; 120; 34]%N).
  - repeat (apply Forall_cons; [unfold scalar; left; reflexivity |]).
    apply Forall_nil.
  - right. discriminate.
Defined.


(** A text the console cannot write.  On the only line of the file of
    [accent_os] the password alert raises at its second text, after the
    header: the hit is not counted, the error is printed in place of the
    rest of the alert, and the run goes on to its end with no hit, where a
    console that writes every text gives two. *)
Lemma print_failure_example :
  let run stdout :=
    data_hunter (fun _ => false) (fun _ c _ => [c]) stdout accent_os
      (txt "proj") in
  hits (fst (run any_console)) = 2 /\
  hits (fst (run ascii_console)) = 0 /\
  snd (run ascii_console) = Finished /\
  In (txt "[ALERT: PASSWORD] Found in app.py (Line 1)")
    (printed (fst (run ascii_console))) /\
  In (txt "[ERROR] Could not read file: app.py, due to "
        ++ txt "'ascii' codec can't encode character")
    (printed (fst (run ascii_console))) /\
  ~ In rule (printed (fst (run ascii_console))).
Proof.
  vm_compute. repeat split; auto 20.
  intros H. repeat (destruct H as [H | H]; [discriminate H |]). exact H.
Qed.

(** ** From the file to the alert *)

(** A text without white space at its ends that occurs on a line occurs on
    the stripped line. *)
Lemma occurs_strip (t raw : str) :
  (forall c u, t = c :: u -> space c = false) ->
  (forall u c, t = u ++ [c] -> space c = false) ->
  t <> [] -> occurs t raw -> occurs t (strip raw).
Proof.
  intros Hfirst Hlast Hne (pre & post & Hraw).
  destruct (strip_decompose raw) as (ws1 & ws2 & Hs & H1 & H2).
  unfold blanks in H1, H2. rewrite Forall_forall in H1, H2.
  assert (Heq : ws1 ++ strip raw ++ ws2 = pre ++ t ++ post)
    by (rewrite <- Hs; exact Hraw).
  assert (Hleft : exists l, strip raw ++ ws2 = l ++ t ++ post).
  { apply app_eq_app in Heq.
    destruct Heq as (l & [[Hw Ht] | [Hp Hc]]).
    - destruct l as [|x l]; [exists []; symmetry; exact Ht |].
      exfalso. destruct t as [|c u]; [congruence |].
      simpl in Ht. injection Ht as -> _.
      assert (Hx : space x = true).
      { apply H1. rewrite Hw. apply in_or_app. right. left. reflexivity. }
      rewrite (Hfirst x u eq_refl) in Hx. discriminate Hx.
    - exists l. exact Hc. }
  destruct Hleft as (l & Hl). rewrite (app_assoc l t post) in Hl.
  apply app_eq_app in Hl. destruct Hl as (m & [[Hc Hp] | [Ht Hw]]).
  - exists l, m. rewrite Hc, <- app_assoc. reflexivity.
  - destruct (exists_last Hne) as (u & z & Hz).
    destruct m as [|y m].
    + exists l, []. rewrite app_nil_r in Ht. rewrite <- Ht, app_nil_r.
      reflexivity.
    + exfalso. destruct (exists_last (l := y :: m)) as (m' & z' & Hm');
        [discriminate |].
      rewrite Hm', Hz in Ht.
      rewrite (app_assoc l u [z]), (app_assoc (strip raw) m' [z']) in Ht.
      apply app_inj_tail in Ht. destruct Ht as [_ <-].
      assert (Hx : space z = true).
      { apply H2. rewrite Hw, Hm'. apply in_or_app. left.
        apply in_or_app. right. left. reflexivity. }
      rewrite (Hlast u z Hz) in Hx. discriminate Hx.
Qed.

(** Every line of a file that holds [:] or [=], blanks, a quote, any value
    and a quote raises a PASSWORD alert: on the lines of a file the value
    cannot hold a line feed. *)
Theorem file_line_assignment_alert (uni_alnum : char -> bool)
  (text raw ws value : str) (sep q1 q2 : char) :
  In raw (text_lines [] text) ->
  occurs ([sep] ++ ws ++ [q1] ++ value ++ [q2]) raw ->
  separator sep = true -> blanks ws ->
  quote q1 = true -> quote q2 = true ->
  match_sensitive uni_alnum (strip raw) <> None.
Proof.
  intros Hraw Hocc Hsep Hws Hq1 Hq2.
  assert (Hnb : no_break (strip raw)).
  { assert (H := text_lines_shape (length text) text [] (Nat.le_refl _)).
    assert (Hempty : no_break []) by (split; intros []).
    specialize (H Hempty). rewrite Forall_forall in H.
    destruct (H raw Hraw) as (content & Hc & [-> | ->]).
    - apply strip_line_no_break. exact Hc.
    - destruct Hc as [H10 H13]. split; intros Hin;
        apply strip_occurs in Hin; auto. }
  apply occurs_strip in Hocc.
  - apply (search_complete _ _ _ Hocc).
    unfold sensitive_data_regex. cbn [cats].
    apply (lang_cat _ _ []); [exists [], [], 0; simpl; auto |].
    apply lang_last. apply lang_assignment_tail; try assumption.
    intros Hin. destruct Hnb as [H10 _]. apply H10.
    destruct Hocc as (pre & post & ->).
    apply in_or_app. right. apply in_or_app. left.
    apply in_or_app. right. apply in_or_app. right.
    apply in_or_app. right. apply in_or_app. left. exact Hin.
  - intros c u H. injection H as <- _. apply separator_not_space.
    exact Hsep.
  - intros u c H.
    change ([sep] ++ ws ++ [q1] ++ value ++ [q2])
      with (sep :: ws ++ q1 :: value ++ [q2]) in H.
    rewrite app_comm_cons, (app_comm_cons value [q2] q1) in H.
    rewrite app_assoc in H. apply app_inj_tail in H.
    destruct H as [_ <-]. apply quote_not_space. exact Hq2.
  - discriminate.
Qed.

Lemma file_line_assignment_alert_witness :
  match_sensitive (fun _ => false)
    (strip (txt "  token = 'xyz'  " ++ [newline])) <> None.
Proof.
  apply (file_line_assignment_alert (fun _ => false)
           (txt "first" ++ [13; 10]%N ++ txt "  token = 'xyz'  "
              ++ [newline] ++ txt "last")
           (txt "  token = 'xyz'  " ++ [newline])
           (txt " ") (txt "xyz") (ch "=") squote squote).
  - vm_compute. auto.
  - exists (txt "  token "), (txt "  " ++ [newline]). reflexivity.
  - reflexivity.
  - apply Forall_cons; [reflexivity | apply Forall_nil].
  - reflexivity.
  - reflexivity.
Defined.

(** Every line that holds an e-mail token raises an EMAIL alert, and the
    text shown is an e-mail token of that line: the white space that is
    stripped takes nothing of a token away. *)
Theorem raw_line_email_alert (t raw : str) :
  email_token t -> occurs t raw ->
  exists m,
    match_email (strip raw) = Some m /\ email_token m /\ occurs m raw.
Proof.
  intros Ht Hocc.
  assert (Hs : occurs t (strip raw)).
  { destruct Ht as (l & d & tld & -> & Hl & Fl & Hd & Fd & Ft & Hlen).
    apply occurs_strip; [| | | exact Hocc].
    - intros c u H. destruct Fl as [|x l Hx Fl]; [congruence |].
      simpl in H. injection H as <- _.
      destruct (space x) eqn:E; [| reflexivity].
      apply space_not_local in E. congruence.
    - intros u c H.
      destruct (exists_last (l := tld)) as (tl & z & Hz).
      { intros ->. simpl in Hlen. lia. }
      rewrite Hz in H, Ft.
      replace (l ++ [ch "@"] ++ d ++ [ch "."] ++ tl ++ [z])
        with ((l ++ [ch "@"] ++ d ++ [ch "."] ++ tl) ++ [z]) in H
        by (repeat rewrite <- app_assoc; reflexivity).
      apply app_inj_tail in H. destruct H as [_ <-].
      apply Forall_app in Ft. destruct Ft as [_ Ft].
      inversion Ft as [|? ? Hletter _]; subst.
      destruct (space z) eqn:E; [| reflexivity].
      pose proof (email_rejects_space z E) as Hr.
      unfold email_regex in Hr. cbn [cats rejects plus] in Hr.
      destruct Hr as (_ & _ & _ & _ & Hr & _). congruence.
    - destruct l; [congruence | discriminate]. }
  apply email_token_lang in Ht. unfold match_email.
  destruct (search email_regex (strip raw)) as [m|] eqn:Hm.
  - exists m. split; [reflexivity |]. apply search_sound in Hm.
    destruct Hm as [(pre & post & Hm) Hl]. split.
    + apply email_token_lang. exact Hl.
    + destruct (strip_decompose raw) as (ws1 & ws2 & Hraw & _ & _).
      exists (ws1 ++ pre), (post ++ ws2). rewrite Hraw at 1. rewrite Hm.
      repeat rewrite <- app_assoc. reflexivity.
  - exfalso. exact (search_complete _ _ _ Hs Ht Hm).
Qed.

Lemma raw_line_email_alert_witness :
  exists m,
    match_email (strip (txt "  mail a.b@c.de now " ++ [newline])) = Some m /\
    email_token m /\
    occurs m (txt "  mail a.b@c.de now " ++ [newline]).
Proof.
  apply (raw_line_email_alert (txt "a.b@c.de")
           (txt "  mail a.b@c.de now " ++ [newline])).
  - exists (txt "a.b"), (txt "c"), (txt "de").
    split; [reflexivity |]. hyps_tld; simpl; lia.
  - exists (txt "  mail "), (txt " now " ++ [newline]). reflexivity.
Defined.

Lemma text_lines_concat_from (text current : str) :
  ~ In 13%N text -> concat (text_lines current text) = current ++ text.
Proof.
  revert current. induction text as [|c text IH]; intros current H.
  - simpl. destruct current; simpl; rewrite ?app_nil_r; reflexivity.
  - cbn [text_lines].
    destruct (N.eqb_spec c 13) as [-> | _];
      [exfalso; apply H; left; reflexivity |].
    assert (H' : ~ In 13%N text) by (intros Hin; apply H; right; exact Hin).
    destruct (N.eqb_spec c 10) as [-> | _].
    + cbn [concat]. rewrite (IH [] H'), <- app_assoc. reflexivity.
    + rewrite (IH _ H'), <- app_assoc. reflexivity.
Qed.

(** The lines of a text without carriage return, put one after the other,
    are the text: splitting into lines loses nothing and adds nothing. *)
Theorem text_lines_concat (text : str) :
  ~ In 13%N text -> concat (text_lines [] text) = text.
Proof. intros H. apply (text_lines_concat_from text [] H). Qed.

Lemma text_lines_concat_witness :
  concat (text_lines [] (txt "a = 1" ++ [newline] ++ txt "b"))
  = txt "a = 1" ++ [newline] ++ txt "b".
Proof.
  apply (text_lines_concat (txt "a = 1" ++ [newline] ++ txt "b")).
  vm_compute. intros H.
  repeat (destruct H as [H | H]; [discriminate H |]). exact H.
Defined.
